(** * User-space wakelocks: kernel/power/wakelock.c

    A shallow embedding of the wakelock registry (name index, recency list,
    garbage collector, acquisition filter, the two sysfs entry points) and
    the properties of it that the specification states.

    Conventions.
    - A C string is the Rocq [string] of its contents; the terminating NUL is
      the end of the Rocq string.  A string that really is a C string holds
      no NUL character ([cstring]).
    - [struct wakelock] objects live in a store indexed by their address; the
      red-black tree and the LRU list hold addresses, as the intrusive
      [rb_node] and [list_head] members do in C.
    - Unsigned machine integers are [Z] with the wrap-around written out.
    - The file is built with CONFIG_PM_WAKELOCKS_GC enabled. *)

From Stdlib Require Import ZArith Lia List Ascii String Bool.
From stdpp Require Import base gmap strings list sorting.

Open Scope Z_scope.

#[local] Arguments String.append !_ _ / : simpl nomatch.

(** ** Error numbers and constants

    The errno values (uapi/asm-generic/errno-base.h) and the time units
    (linux/time64.h) are not under src/; they are the kernel's usual ones.
    [WL_GC_COUNT_MAX] and [WL_GC_TIME_SEC] are defined in wakelock.c. *)

Definition EPERM : Z := 1.
Definition ENOMEM : Z := 12.
Definition EINVAL : Z := 22.
Definition ENOSPC : Z := 28.
Definition ERANGE : Z := 34.

(** Modelled from the spec: [NSEC_PER_MSEC] is not under src/; a
    millisecond is 1,000,000 nanoseconds. *)
Definition NSEC_PER_MSEC : Z := 1000000.
Definition NSEC_PER_SEC : Z := 1000000000.
Definition WL_GC_COUNT_MAX : Z := 100.
Definition WL_GC_TIME_SEC : Z := 300.

Definition u32 (z : Z) : Z := z mod 2 ^ 32.
Definition u64 (z : Z) : Z := z mod 2 ^ 64.
Definition ULLONG_MAX : Z := 2 ^ 64 - 1.

(** ** The kernel library routines the file calls

    lib/string.c, lib/ctype.c and lib/kstrtox.c are not under src/.  The
    routines are given the meaning their C definitions have, on strings
    read as their contents; pointers into a string are its suffixes. *)

Module Klib.

Definition uchar (c : ascii) : Z := Z.of_N (N_of_ascii c).

(** [*s] *)
Definition peek (s : string) : Z :=
  match s with
  | EmptyString => 0
  | String c _ => uchar c
  end.

(** [s + 1] *)
Definition next (s : string) : string :=
  match s with
  | EmptyString => EmptyString
  | String _ r => r
  end.

(** [s[i]] *)
Fixpoint char_at (s : string) (i : nat) : Z :=
  match i with
  | O => peek s
  | S j => char_at (next s) j
  end.

(** [s + n] *)
Fixpoint advance (s : string) (n : nat) : string :=
  match n with
  | O => s
  | S m => advance (next s) m
  end.

Definition strlen (s : string) : nat := String.length s.

(** The kernel's [_ctype] table flags 0x09..0x0d, 0x20 and 0xa0 as space. *)
Definition isspace (c : Z) : bool :=
  ((9 <=? c) && (c <=? 13)) || (c =? 32) || (c =? 160).

Fixpoint skip_spaces (str : string) : string :=
  match str with
  | String c r => if isspace (uchar c) then skip_spaces r else str
  | EmptyString => str
  end.

Fixpoint strncmp (cs ct : string) (count : nat) : Z :=
  match count with
  | O => 0
  | S n =>
      let c1 := peek cs in
      let c2 := peek ct in
      if negb (c1 =? c2) then (if c1 <? c2 then -1 else 1)
      else if c1 =? 0 then 0
      else strncmp (next cs) (next ct) n
  end.

(** [memcmp(s1, s2, n) == 0], for [n] bytes inside both strings *)
Fixpoint memcmp_eq (s1 s2 : string) (n : nat) : bool :=
  match n with
  | O => true
  | S m => (peek s1 =? peek s2) && memcmp_eq (next s1) (next s2) m
  end.

(** The loop of [strstr]: [l1] bytes of [s1] are left. *)
Fixpoint strstr_loop (s1 : string) (l1 : nat) (s2 : string) (l2 : nat)
  : option string :=
  if (l1 <? l2)%nat then None
  else
    match l1 with
    | O => if memcmp_eq s1 s2 l2 then Some s1 else None
    | S l1' =>
        if memcmp_eq s1 s2 l2 then Some s1
        else strstr_loop (next s1) l1' s2 l2
    end.

(** [strstr(s1, s2)]: the first occurrence of [s2] in [s1], or NULL *)
Definition strstr (s1 s2 : string) : option string :=
  let l2 := strlen s2 in
  if (l2 =? 0)%nat then Some s1
  else strstr_loop s1 (strlen s1) s2 l2.

(** [kstrndup(s, max)]: a copy of at most [max] characters of [s] *)
Fixpoint kstrndup (s : string) (max : nat) : string :=
  match max, s with
  | S n, String c r => String c (kstrndup r n)
  | _, _ => EmptyString
  end.

Definition isdigit (c : Z) : bool := (48 <=? c) && (c <=? 57).

(** [_parse_integer] in base 10: the value of the leading digits, how many
    there are, and what follows them. *)
Fixpoint _parse_integer (s : string) (res : Z) : Z * nat * string :=
  match s with
  | String c r =>
      if isdigit (uchar c)
      then let '(v, n, rest) := _parse_integer r (res * 10 + (uchar c - 48)) in
           (v, S n, rest)
      else (res, O, s)
  | EmptyString => (res, O, s)
  end.

(** [kstrtou64(s, 10, &res)]: an optional '+', at least one digit, an
    optional final newline, nothing else; [inl] carries the negative errno. *)
Definition kstrtou64 (s : string) : Z + Z :=
  let s := if peek s =? 43 then next s else s in
  let '(v, n, rest) := _parse_integer s 0 in
  if ULLONG_MAX <? v then inl (- ERANGE)
  else if (n =? 0)%nat then inl (- EINVAL)
  else
    let rest := if peek rest =? 10 then next rest else rest in
    if negb (peek rest =? 0) then inl (- EINVAL) else inr v.

End Klib.

Import Klib.

(** A string with no embedded NUL. *)
Fixpoint cstring (s : string) : bool :=
  match s with
  | EmptyString => true
  | String c r => negb (uchar c =? 0) && cstring r
  end.

(** ** The wakeup source primitive (drivers/base/power/wakeup.c)

    The primitive is an external collaborator of wakelock.c.  Only its
    observable snapshot is kept: the [active] flag and [last_time], which
    the collector reads under [ws->lock], and the pending deadline. *)

Record wakeup_source := mk_ws {
  active : bool;
  last_time : Z;                 (* ktime_t, nanoseconds *)
  timer_expires : option Z       (* pending hold, in milliseconds *)
}.

(** Modelled from the spec: [wakeup_source_register] is not under src/; a
    new Lock starts Idle, with no pending deadline. *)
Definition wakeup_source_register : wakeup_source :=
  {| active := false; last_time := 0; timer_expires := None |}.

(** Modelled from the spec: [__pm_stay_awake] is not under src/; acquire
    without timeout moves the Lock to Active, holding indefinitely, and
    updates last_touched. *)
Definition __pm_stay_awake (now : Z) (ws : wakeup_source) : wakeup_source :=
  {| active := true; last_time := now; timer_expires := None |}.

(** Modelled from the spec: [__pm_wakeup_event] is not under src/; acquire
    with a deadline of [msec] milliseconds moves the Lock to TimedActive and
    updates last_touched.  A hold of zero milliseconds has elapsed at once:
    the Lock is Idle. *)
Definition __pm_wakeup_event (now : Z) (ws : wakeup_source) (msec : Z)
  : wakeup_source :=
  if msec =? 0
  then {| active := false; last_time := now; timer_expires := None |}
  else {| active := true; last_time := now; timer_expires := Some msec |}.

(** Modelled from the spec: [__pm_relax] is not under src/; release moves
    the Lock to Idle immediately, overriding a pending timeout, and updates
    last_touched. *)
Definition __pm_relax (now : Z) (ws : wakeup_source) : wakeup_source :=
  {| active := false; last_time := now; timer_expires := None |}.

(** ** Data model *)

Definition ptr := nat.

(** [struct wakelock]; the wakeup source is owned by exactly one wakelock. *)
Record wakelock := mk_wl {
  name : string;
  ws : wakeup_source
}.

(** The tree of [rb_node]s, each embedded in the wakelock at [entry].
    Colours are not kept: [rb_insert_color] and [rb_erase] (lib/rbtree.c)
    recolour and rotate without changing the in-order sequence, and what
    a lookup returns depends on that sequence only
    ([lookup_independent_of_shape]). *)
Inductive rb_node :=
| rb_nil
| rb_mk (rb_left : rb_node) (entry : ptr) (rb_right : rb_node).

(** [struct rb_node **]: the address of a child slot, as the turns taken
    from the root. *)
Inductive turn := go_left | go_right.
Definition slot := list turn.

Record state := mk_state {
  mem : gmap ptr wakelock;          (* live [struct wakelock] objects *)
  wakelocks_tree : rb_node;
  wakelocks_lru_list : list ptr;    (* head first: most recently used *)
  number_of_wakelocks : Z;          (* unsigned int *)
  wakelocks_gc_count : Z;           (* unsigned int *)
  wakelock_work : bool;             (* schedule_work() pending *)
  screen_is_off : bool;
  sensor_event_active : bool
}.

Definition init_state : state :=
  {| mem := ∅; wakelocks_tree := rb_nil; wakelocks_lru_list := [];
     number_of_wakelocks := 0; wakelocks_gc_count := 0;
     wakelock_work := false;
     screen_is_off := false; sensor_event_active := false |}.

(** What a call reads from its surroundings. *)
Record env := mk_env {
  capable : bool;                   (* capable(CAP_BLOCK_SUSPEND) *)
  ktime_get : Z;
  kzalloc_ok : bool;
  kstrndup_ok : bool;
  wakeup_source_register_ok : bool;
  idle_cpu : bool
}.

Definition set_mem (f : gmap ptr wakelock -> gmap ptr wakelock) (st : state)
  : state :=
  {| mem := f (mem st); wakelocks_tree := wakelocks_tree st;
     wakelocks_lru_list := wakelocks_lru_list st;
     number_of_wakelocks := number_of_wakelocks st;
     wakelocks_gc_count := wakelocks_gc_count st;
     wakelock_work := wakelock_work st;
     screen_is_off := screen_is_off st;
     sensor_event_active := sensor_event_active st |}.

Definition set_tree (f : rb_node -> rb_node) (st : state) : state :=
  {| mem := mem st; wakelocks_tree := f (wakelocks_tree st);
     wakelocks_lru_list := wakelocks_lru_list st;
     number_of_wakelocks := number_of_wakelocks st;
     wakelocks_gc_count := wakelocks_gc_count st;
     wakelock_work := wakelock_work st;
     screen_is_off := screen_is_off st;
     sensor_event_active := sensor_event_active st |}.

Definition set_lru (f : list ptr -> list ptr) (st : state) : state :=
  {| mem := mem st; wakelocks_tree := wakelocks_tree st;
     wakelocks_lru_list := f (wakelocks_lru_list st);
     number_of_wakelocks := number_of_wakelocks st;
     wakelocks_gc_count := wakelocks_gc_count st;
     wakelock_work := wakelock_work st;
     screen_is_off := screen_is_off st;
     sensor_event_active := sensor_event_active st |}.

Definition set_number (f : Z -> Z) (st : state) : state :=
  {| mem := mem st; wakelocks_tree := wakelocks_tree st;
     wakelocks_lru_list := wakelocks_lru_list st;
     number_of_wakelocks := f (number_of_wakelocks st);
     wakelocks_gc_count := wakelocks_gc_count st;
     wakelock_work := wakelock_work st;
     screen_is_off := screen_is_off st;
     sensor_event_active := sensor_event_active st |}.

Definition set_gc_count (n : Z) (st : state) : state :=
  {| mem := mem st; wakelocks_tree := wakelocks_tree st;
     wakelocks_lru_list := wakelocks_lru_list st;
     number_of_wakelocks := number_of_wakelocks st;
     wakelocks_gc_count := n;
     wakelock_work := wakelock_work st;
     screen_is_off := screen_is_off st;
     sensor_event_active := sensor_event_active st |}.

Definition set_work (b : bool) (st : state) : state :=
  {| mem := mem st; wakelocks_tree := wakelocks_tree st;
     wakelocks_lru_list := wakelocks_lru_list st;
     number_of_wakelocks := number_of_wakelocks st;
     wakelocks_gc_count := wakelocks_gc_count st;
     wakelock_work := b;
     screen_is_off := screen_is_off st;
     sensor_event_active := sensor_event_active st |}.

(** [wl->name] and [wl->ws]; every address held by the tree or the LRU list
    of a well-formed registry is live, the defaults are never read there. *)
Definition name_of (m : gmap ptr wakelock) (wl : ptr) : string :=
  match m !! wl with
  | Some w => name w
  | None => EmptyString
  end.

Definition ws_of (m : gmap ptr wakelock) (wl : ptr) : wakeup_source :=
  match m !! wl with
  | Some w => ws w
  | None => wakeup_source_register
  end.

(** An update through [wl->ws]. *)
Definition update_ws (f : wakeup_source -> wakeup_source) (wl : ptr)
  (m : gmap ptr wakelock) : gmap ptr wakelock :=
  match m !! wl with
  | Some w => <[wl := {| name := name w; ws := f (ws w) |}]> m
  | None => m
  end.

(** ** Red-black tree primitives (lib/rbtree.c), colours left out *)

(** [rb_link_node(&wl->node, parent, node)] followed by [rb_insert_color]:
    the new node becomes the child in the empty slot [node]. *)
Fixpoint rb_link_node (wl : ptr) (node : slot) (root : rb_node) {struct root}
  : rb_node :=
  match root, node with
  | rb_nil, _ => rb_mk rb_nil wl rb_nil
  | rb_mk l e r, go_left :: node' => rb_mk (rb_link_node wl node' l) e r
  | rb_mk l e r, go_right :: node' => rb_mk l e (rb_link_node wl node' r)
  | rb_mk l e r, [] => rb_mk l e r
  end.

Fixpoint rb_join (l r : rb_node) : rb_node :=
  match l with
  | rb_nil => r
  | rb_mk ll e lr => rb_mk ll e (rb_join lr r)
  end.

(** [rb_erase(&wl->node, root)]: the node embedded in [wl] leaves the tree,
    the order of the others is kept. *)
Fixpoint rb_erase (wl : ptr) (root : rb_node) : rb_node :=
  match root with
  | rb_nil => rb_nil
  | rb_mk l e r =>
      if decide (e = wl) then rb_join l r
      else rb_mk (rb_erase wl l) e (rb_erase wl r)
  end.

(** [rb_first] / [rb_next]: the in-order walk. *)
Fixpoint rb_inorder (root : rb_node) : list ptr :=
  match root with
  | rb_nil => []
  | rb_mk l e r => rb_inorder l ++ e :: rb_inorder r
  end.

(** ** LRU list primitives (linux/list.h) *)

Definition list_del (wl : ptr) (l : list ptr) : list ptr :=
  filter (fun x => x ≠ wl) l.

(** [list_add(&wl->lru, &wakelocks_lru_list)] *)
Definition wakelocks_lru_add (wl : ptr) (st : state) : state :=
  set_lru (fun l => wl :: l) st.

(** [list_move(&wl->lru, &wakelocks_lru_list)] *)
Definition wakelocks_lru_most_recent (wl : ptr) (st : state) : state :=
  set_lru (fun l => wl :: list_del wl l) st.

(** ** The registry operations *)

Section Wakelocks.

(** The Kconfig value; 0 means no limit and no counter. *)
Variable CONFIG_PM_WAKELOCKS_LIMIT : Z.

Definition wakelocks_limit_exceeded (st : state) : bool :=
  if 0 <? CONFIG_PM_WAKELOCKS_LIMIT
  then CONFIG_PM_WAKELOCKS_LIMIT <? number_of_wakelocks st
  else false.

Definition increment_wakelocks_number (st : state) : state :=
  if 0 <? CONFIG_PM_WAKELOCKS_LIMIT
  then set_number (fun n => u32 (n + 1)) st
  else st.

Definition decrement_wakelocks_number (st : state) : state :=
  if 0 <? CONFIG_PM_WAKELOCKS_LIMIT
  then set_number (fun n => u32 (n - 1)) st
  else st.

(** *** The collector *)

(** [ktime_to_ns(ktime_sub(now, wl->ws->last_time))] stored in a [u64] *)
Definition idle_time_ns (now : Z) (w : wakeup_source) : Z :=
  u64 (now - last_time w).

(** The body of the [if (!active)] branch. *)
Definition gc_destroy (wl : ptr) (st : state) : state :=
  let st := set_mem (delete wl) st in            (* unregister, kfree *)
  let st := set_tree (rb_erase wl) st in
  let st := set_lru (list_del wl) st in
  decrement_wakelocks_number st.

(** [list_for_each_entry_safe_reverse] over the entries [l], oldest first. *)
Fixpoint gc_scan (now : Z) (l : list ptr) (st : state) : state :=
  match l with
  | [] => st
  | wl :: aux =>
      let idle_time_ns := idle_time_ns now (ws_of (mem st) wl) in
      let active := active (ws_of (mem st) wl) in
      if idle_time_ns <? WL_GC_TIME_SEC * NSEC_PER_SEC then st
      else if negb active then gc_scan now aux (gc_destroy wl st)
      else gc_scan now aux st
  end.

Definition __wakelocks_gc (now : Z) (st : state) : state :=
  let st := gc_scan now (reverse (wakelocks_lru_list st)) st in
  set_gc_count 0 st.

Definition wakelocks_gc (e : env) (st : state) : state :=
  if idle_cpu e then set_work true st
  else
    let st := set_gc_count (u32 (wakelocks_gc_count st + 1)) st in
    if wakelocks_gc_count st <=? WL_GC_COUNT_MAX then st
    else set_work true st.

(** The work queue runs the pending work item. *)
Definition run_wakelock_work (now : Z) (st : state) : state :=
  if wakelock_work st then __wakelocks_gc now (set_work false st) else st.

(** *** The name index *)

(** One iteration of the search loop: [None] is [return wl], [Some diff]
    the value that picks the child. *)
Definition name_diff (m : gmap ptr wakelock) (nm : string) (len : nat)
  (wl : ptr) : option Z :=
  let diff := strncmp nm (name_of m wl) len in
  if diff =? 0 then
    if negb (char_at (name_of m wl) len =? 0) then Some (-1) else None
  else Some diff.

(** The search loop over the tree: the wakelock found, or the empty slot
    the walk ends in. *)
Fixpoint lookup_walk (m : gmap ptr wakelock) (nm : string) (len : nat)
  (node : rb_node) : ptr + slot :=
  match node with
  | rb_nil => inr []
  | rb_mk l wl r =>
      match name_diff m nm len wl with
      | None => inl wl
      | Some diff =>
          if diff <? 0
          then match lookup_walk m nm len l with
               | inl w => inl w
               | inr s => inr (go_left :: s)
               end
          else match lookup_walk m nm len r with
               | inl w => inl w
               | inr s => inr (go_right :: s)
               end
      end
  end.

(** [inl] is an [ERR_PTR], [inr] the wakelock. *)
Definition wakelock_lookup_add (e : env) (nm : string) (len : nat)
  (add_if_not_found : bool) (st : state) : (Z + ptr) * state :=
  match lookup_walk (mem st) nm len (wakelocks_tree st) with
  | inl wl => (inr wl, st)
  | inr node =>
      if negb add_if_not_found then (inl (- EINVAL), st)
      else if wakelocks_limit_exceeded st then (inl (- ENOSPC), st)
      else if negb (kzalloc_ok e) then (inl (- ENOMEM), st)
      else if negb (kstrndup_ok e) then (inl (- ENOMEM), st)
      else if negb (wakeup_source_register_ok e) then (inl (- ENOMEM), st)
      else
        let wl := fresh (dom (mem st)) in
        let w := {| name := kstrndup nm len;
                    ws := {| active := active wakeup_source_register;
                             last_time := ktime_get e;
                             timer_expires :=
                               timer_expires wakeup_source_register |} |} in
        let st := set_mem (insert wl w) st in
        let st := set_tree (rb_link_node wl node) st in
        let st := wakelocks_lru_add wl st in
        let st := increment_wakelocks_number st in
        (inr wl, st)
  end.

(** *** The wakelock filter *)

Definition blocked_wakelocks : list string :=
  [ "ufs_hba"; "ufs_pm"; "ufsclks"; "ufs-event"; "ufs-busmon";
    "scsi_eh"; "sdcardfs"; "vold";
    "wlan_timer"; "wifi_low_latency";
    "net_scheduler"; "ipa_ws";
    "logd"; "dp_wakelock"; "system_suspend"; "ssr" ]%string.

Definition wakelock_filter_sensor_event_start (st : state) : state :=
  {| mem := mem st; wakelocks_tree := wakelocks_tree st;
     wakelocks_lru_list := wakelocks_lru_list st;
     number_of_wakelocks := number_of_wakelocks st;
     wakelocks_gc_count := wakelocks_gc_count st;
     wakelock_work := wakelock_work st;
     screen_is_off := screen_is_off st;
     sensor_event_active := true |}.

Definition wakelock_filter_sensor_event_end (st : state) : state :=
  {| mem := mem st; wakelocks_tree := wakelocks_tree st;
     wakelocks_lru_list := wakelocks_lru_list st;
     number_of_wakelocks := number_of_wakelocks st;
     wakelocks_gc_count := wakelocks_gc_count st;
     wakelock_work := wakelock_work st;
     screen_is_off := screen_is_off st;
     sensor_event_active := false |}.

(** A pointer result used as a truth value. *)
Definition non_null {A : Type} (p : option A) : bool :=
  match p with
  | Some _ => true
  | None => false
  end.

(** The [for] loop over the NULL-terminated table. *)
Fixpoint blocked_loop (nm : string) (wl : list string) : bool :=
  match wl with
  | [] => false
  | p :: wl' => if non_null (strstr nm p) then true else blocked_loop nm wl'
  end.

Definition should_block_wakelock (st : state) (nm : string) : bool :=
  if sensor_event_active st then false
  else if non_null (strstr nm "dt2w") || non_null (strstr nm "double_tap") ||
          non_null (strstr nm "faceunlock") ||
          non_null (strstr nm "facerecog") ||
          non_null (strstr nm "media") || non_null (strstr nm "audio") ||
          non_null (strstr nm "video")
  then false
  else blocked_loop nm blocked_wakelocks.

(** *** The entry points *)

(** The scan of the name: the length of the leading run of characters
    that are neither the NUL nor white space. *)
Fixpoint name_len (str : string) : nat :=
  match str with
  | EmptyString => O
  | String c r => if isspace (uchar c) then O else S (name_len r)
  end.

(** [timeout_ns + NSEC_PER_MSEC - 1] in a [u64], then [do_div]. *)
Definition timeout_ms_of (timeout_ns : Z) : Z :=
  u64 (timeout_ns + NSEC_PER_MSEC - 1) / NSEC_PER_MSEC.

Definition pm_wake_lock (e : env) (buf : string) (st : state) : Z * state :=
  if negb (capable e) then (- EPERM, st)
  else
    let len := name_len buf in
    let str := advance buf len in
    if (len =? 0)%nat then (- EINVAL, st)
    else if screen_is_off st && should_block_wakelock st buf then (0, st)
    else
      match (if negb (peek str =? 0) && negb (peek str =? 10)
             then kstrtou64 (skip_spaces str) else inr 0) with
      | inl _ => (- EINVAL, st)
      | inr timeout_ns =>
          match wakelock_lookup_add e buf len true st with
          | (inl err, st) => (err, st)
          | (inr wl, st) =>
              let st :=
                if negb (timeout_ns =? 0)
                then set_mem (update_ws (fun w => __pm_wakeup_event
                       (ktime_get e) w (timeout_ms_of timeout_ns)) wl) st
                else set_mem (update_ws (__pm_stay_awake (ktime_get e)) wl) st
              in
              (0, wakelocks_lru_most_recent wl st)
          end
      end.

Definition pm_wake_unlock (e : env) (buf : string) (st : state) : Z * state :=
  if negb (capable e) then (- EPERM, st)
  else
    let len := strlen buf in
    if (len =? 0)%nat then (- EINVAL, st)
    else
      let len := if char_at buf (len - 1) =? 10 then (len - 1)%nat else len in
      if (len =? 0)%nat then (- EINVAL, st)
      else
        match wakelock_lookup_add e buf len false st with
        | (inl err, st) => (err, st)
        | (inr wl, st) =>
            let st := set_mem (update_ws (__pm_relax (ktime_get e)) wl) st in
            let st := wakelocks_lru_most_recent wl st in
            (0, wakelocks_gc e st)
        end.

(** [sysfs_emit_at(buf, at, fmt, ...)] (fs/sysfs/file.c, not under src/):
    the text is written behind the [at] characters already in the page,
    cut so that it and its NUL fit; nothing is written when [at] is not
    inside the page.  [buf] is the text written so far, [at] its length. *)
Definition sysfs_emit_at (PAGE_SIZE : nat) (buf : string) (text : string)
  : string :=
  if (PAGE_SIZE <=? strlen buf)%nat then buf
  else (buf ++ kstrndup text (PAGE_SIZE - strlen buf - 1))%string.

(** The loop of [pm_show_wakelocks] over the nodes from [rb_first] on. *)
Fixpoint show_loop (PAGE_SIZE : nat) (show_active : bool)
  (m : gmap ptr wakelock) (nodes : list ptr) (buf : string) : string :=
  match nodes with
  | [] => buf
  | wl :: rest =>
      let buf :=
        if Bool.eqb (active (ws_of m wl)) show_active
        then sysfs_emit_at PAGE_SIZE buf (name_of m wl ++ " ")
        else buf in
      show_loop PAGE_SIZE show_active m rest buf
  end.

(** [pm_show_wakelocks]: the text left in the page; the value returned is
    its length. *)
Definition pm_show_wakelocks (PAGE_SIZE : nat) (show_active : bool)
  (st : state) : string :=
  let buf := show_loop PAGE_SIZE show_active (mem st)
               (rb_inorder (wakelocks_tree st)) EmptyString in
  sysfs_emit_at PAGE_SIZE buf (String "010"%char EmptyString).

End Wakelocks.

(** *** The display notifier *)

Section FbNotifier.

(** The event and blank codes of linux/fb.h and the notifier results of
    linux/notifier.h are not under src/; they are left open. *)
Variables FB_EVENT_BLANK FB_BLANK_UNBLANK NOTIFY_DONE NOTIFY_OK : Z.

(** [data] is [evdata]: [None] a NULL event, [Some None] an event without
    data, [Some (Some blank)] an event whose data points at [blank]. *)
Definition fb_notifier_callback (event : Z) (data : option (option Z))
  (st : state) : Z * state :=
  let blank :=
    if negb (event =? FB_EVENT_BLANK) then None
    else match data with
         | Some (Some blank) => Some blank
         | _ => None
         end in
  match blank with
  | None => (NOTIFY_DONE, st)
  | Some blank =>
      (NOTIFY_OK,
       {| mem := mem st; wakelocks_tree := wakelocks_tree st;
          wakelocks_lru_list := wakelocks_lru_list st;
          number_of_wakelocks := number_of_wakelocks st;
          wakelocks_gc_count := wakelocks_gc_count st;
          wakelock_work := wakelock_work st;
          screen_is_off := negb (blank =? FB_BLANK_UNBLANK);
          sensor_event_active := sensor_event_active st |})
  end.

End FbNotifier.

(** ** Concrete surroundings used by the examples *)

Definition nl : string := String "010"%char EmptyString.

Definition env_priv (now : Z) : env :=
  {| capable := true; ktime_get := now; kzalloc_ok := true;
     kstrndup_ok := true; wakeup_source_register_ok := true;
     idle_cpu := false |}.

Definition env_unpriv (now : Z) : env :=
  {| capable := false; ktime_get := now; kzalloc_ok := true;
     kstrndup_ok := true; wakeup_source_register_ok := true;
     idle_cpu := false |}.

(** The empty registry after the display went blank. *)
Definition screen_off_state : state :=
  {| mem := ∅; wakelocks_tree := rb_nil; wakelocks_lru_list := [];
     number_of_wakelocks := 0; wakelocks_gc_count := 0;
     wakelock_work := false;
     screen_is_off := true; sensor_event_active := false |}.

(** [str] after the scan of the name in [pm_wake_lock]. *)
Definition trailer (buf : string) : string := advance buf (name_len buf).

(** The request is dropped by the filter. *)
Definition vetoed (st : state) (buf : string) : bool :=
  screen_is_off st && should_block_wakelock st buf.

(** The state a successful acquire leaves. *)
Definition acquire (limit : Z) (now : Z) (buf : string) (st : state) : state :=
  snd (pm_wake_lock limit (env_priv now) buf st).

(** ** Vocabulary of the specification *)

(** [p] occurs in [s] as a run of consecutive characters. *)
Definition contains (s p : string) : Prop :=
  exists a b, s = (a ++ p ++ b)%string.

(** The markers that are never blocked. *)
Definition always_allowed : list string :=
  [ "dt2w"; "double_tap"; "faceunlock"; "facerecog"; "media"; "audio";
    "video" ]%string.

(** The name a request asks for: the leading run of non-space characters. *)
Definition requested_name (buf : string) : string :=
  kstrndup buf (name_len buf).

(** At or past the collector's threshold. *)
Definition stale (now : Z) (m : gmap ptr wakelock) (wl : ptr) : bool :=
  negb (idle_time_ns now (ws_of m wl) <? WL_GC_TIME_SEC * NSEC_PER_SEC).

(** The wakelocks a sweep over [l] meets before the one it stops at. *)
Fixpoint scanned (now : Z) (m : gmap ptr wakelock) (l : list ptr) : list ptr :=
  match l with
  | [] => []
  | wl :: l' => if stale now m wl then wl :: scanned now m l' else []
  end.

(** The inactive ones among them. *)
Definition collected (now : Z) (st : state) : list ptr :=
  filter (fun wl => active (ws_of (mem st) wl) = false)
    (scanned now (mem st) (reverse (wakelocks_lru_list st))).

(** A well-formed registry: the tree and the LRU list each hold every live
    wakelock once, names are C strings, the counter is an [unsigned int]. *)
Definition wf (st : state) : Prop :=
  (list_to_set (rb_inorder (wakelocks_tree st)) : gset ptr) = dom (mem st) /\
  (list_to_set (wakelocks_lru_list st) : gset ptr) = dom (mem st) /\
  NoDup (rb_inorder (wakelocks_tree st)) /\
  NoDup (wakelocks_lru_list st) /\
  map_Forall (fun _ w => cstring (name w) = true) (mem st) /\
  0 <= number_of_wakelocks st < 2 ^ 32.

#[global] Instance wf_dec (st : state) : Decision (wf st).
Proof. unfold wf. apply _. Defined.

(** The order the search loop keeps the tree in: byte-wise comparison, a
    proper prefix before its extensions. *)
Fixpoint name_ltb (a b : string) : bool :=
  match a, b with
  | _, EmptyString => false
  | EmptyString, String _ _ => true
  | String c a', String d b' =>
      (uchar c <? uchar d) || ((uchar c =? uchar d) && name_ltb a' b')
  end.

Definition name_before (m : gmap ptr wakelock) (p q : ptr) : Prop :=
  name_ltb (name_of m p) (name_of m q) = true.

(** The tree is a search tree: its in-order walk lists the names in
    strictly increasing order. *)
Definition search_tree (st : state) : Prop :=
  StronglySorted (name_before (mem st)) (rb_inorder (wakelocks_tree st)).

#[global] Instance search_tree_dec (st : state) : Decision (search_tree st).
Proof. unfold search_tree, name_before. apply _. Defined.

(** Every name held by the wakelocks of [l] is a C string. *)
Definition names_ok (m : gmap ptr wakelock) (l : list ptr) : Prop :=
  forall p, p ∈ l -> cstring (name_of m p) = true.

(** The states the registry can be in: the calls of the two entry points,
    the runs of the collector and the changes of the filter flags, from the
    empty registry. *)
Inductive reachable (limit : Z) : state -> Prop :=
| reach_init : reachable limit init_state
| reach_lock e buf st :
    reachable limit st -> cstring buf = true ->
    reachable limit (snd (pm_wake_lock limit e buf st))
| reach_unlock e buf st :
    reachable limit st -> cstring buf = true ->
    reachable limit (snd (pm_wake_unlock limit e buf st))
| reach_gc now st :
    reachable limit st -> reachable limit (__wakelocks_gc limit now st)
| reach_sensor_start st :
    reachable limit st ->
    reachable limit (wakelock_filter_sensor_event_start st)
| reach_sensor_end st :
    reachable limit st ->
    reachable limit (wakelock_filter_sensor_event_end st)
| reach_screen b st :
    reachable limit st ->
    reachable limit
      {| mem := mem st; wakelocks_tree := wakelocks_tree st;
         wakelocks_lru_list := wakelocks_lru_list st;
         number_of_wakelocks := number_of_wakelocks st;
         wakelocks_gc_count := wakelocks_gc_count st;
         wakelock_work := wakelock_work st;
         screen_is_off := b;
         sensor_event_active := sensor_event_active st |}.

(** The counter tells how many wakelocks are live, one more than the
    limit at most. *)
Definition counted (limit : Z) (st : state) : Prop :=
  number_of_wakelocks st = Z.of_nat (length (wakelocks_lru_list st)) /\
  number_of_wakelocks st <= limit + 1.

(** Three wakelocks taken at times 7, 8 and 9, the second released at 10:
    "abc" is the least recently used and still active, "a" the most
    recently used and inactive. *)
Definition three_locks : state :=
  acquire 8 9 "ab" (acquire 8 8 "a" (acquire 8 7 "abc" init_state)).

Definition demo_state : state :=
  snd (pm_wake_unlock 8 (env_priv 10) "a" three_locks).

(** [p] is a proper prefix of [n]. *)
Definition strict_prefix (p n : string) : Prop :=
  exists s, s <> EmptyString /\ n = (p ++ s)%string.

(** The full text of a listing: the names whose [active] flag equals
    [show_active], in tree order, a space after each, then a newline. *)
Definition listing (show_active : bool) (st : state) : string :=
  fold_right
    (fun wl acc =>
       if Bool.eqb (active (ws_of (mem st) wl)) show_active
       then (name_of (mem st) wl ++ " " ++ acc)%string else acc)
    nl
    (rb_inorder (wakelocks_tree st)).

(** [len] in [pm_wake_unlock]: the length of the request without its final
    newline. *)
Definition unlock_len (buf : string) : nat :=
  if char_at buf (strlen buf - 1) =? 10 then (strlen buf - 1)%nat
  else strlen buf.

(** No character of [s] is white space. *)
Fixpoint no_space (s : string) : bool :=
  match s with
  | EmptyString => true
  | String c r => negb (isspace (uchar c)) && no_space r
  end.

(** [p] holds no newline. *)
Fixpoint no_newline (p : string) : bool :=
  match p with
  | EmptyString => true
  | String c r => negb (uchar c =? 10) && no_newline r
  end.

(** The same registry under two shapes of the tree: a chain, as three
    insertions leave it, and the balanced tree over the same wakelocks. *)
Definition chain_tree : rb_node :=
  rb_mk (rb_mk rb_nil 1%nat (rb_mk rb_nil 2%nat rb_nil)) 0%nat rb_nil.

Definition balanced_tree : rb_node :=
  rb_mk (rb_mk rb_nil 1%nat rb_nil) 2%nat (rb_mk rb_nil 0%nat rb_nil).

(** [timeout_ns] as [pm_wake_lock] reads it off the request: 0 when the
    name ends the request or is followed by a newline, else what
    [kstrtou64] makes of the rest. *)
Definition parsed_timeout (buf : string) : Z + Z :=
  if negb (peek (trailer buf) =? 0) && negb (peek (trailer buf) =? 10)
  then kstrtou64 (skip_spaces (trailer buf)) else inr 0.

(** A privileged caller at a moment when no memory can be had. *)
Definition env_no_memory (now : Z) : env :=
  {| capable := true; ktime_get := now; kzalloc_ok := false;
     kstrndup_ok := false; wakeup_source_register_ok := false;
     idle_cpu := false |}.

(** A call made on an otherwise idle CPU. *)
Definition env_idle : env :=
  {| capable := true; ktime_get := 0; kzalloc_ok := true;
     kstrndup_ok := true; wakeup_source_register_ok := true;
     idle_cpu := true |}.


(** A decidable property of a concrete state, settled by evaluation. *)
Ltac decide_by_computation :=
  apply (bool_decide_unpack _); vm_compute; exact I.

(** ** Privilege check *)

(** C10: both entry points test CAP_BLOCK_SUSPEND first; an unprivileged
    caller gets -EPERM and the state is left as it was, whatever the request
    is. *)
Theorem unprivileged_is_refused (limit : Z) (e : env) (buf : string)
  (st : state) :
  capable e = false ->
  pm_wake_lock limit e buf st = (- EPERM, st) /\
  pm_wake_unlock limit e buf st = (- EPERM, st).
Proof.
  intros Hcap. unfold pm_wake_lock, pm_wake_unlock.
  rewrite Hcap. split; reflexivity.
Qed.

Lemma unprivileged_is_refused_witness :
  (pm_wake_lock 4 (env_unpriv 7) "logd" screen_off_state
     = (- EPERM, screen_off_state) /\
   pm_wake_unlock 4 (env_unpriv 7) "logd" screen_off_state
     = (- EPERM, screen_off_state)) /\
  (pm_wake_lock 4 (env_unpriv 7) "" screen_off_state
     = (- EPERM, screen_off_state) /\
   pm_wake_unlock 4 (env_unpriv 7) "" screen_off_state
     = (- EPERM, screen_off_state)).
Proof.
  split; apply unprivileged_is_refused; reflexivity.
Defined.

(** The same deny-listed request from a privileged caller is dropped with
    return value 0, and the empty name is -EINVAL. *)
Example privileged_contrast :
  pm_wake_lock 4 (env_priv 7) "logd" screen_off_state = (0, screen_off_state) /\
  pm_wake_lock 4 (env_priv 7) "" screen_off_state
    = (- EINVAL, screen_off_state).
Proof. split; vm_compute; reflexivity. Qed.

(** ** Requests dropped by the filter *)

(** C4: a privileged request with a non-empty name that the filter vetoes
    returns 0 and leaves the whole state, hence the name index, the recency
    list and the live count, exactly as it was. *)
Theorem vetoed_request_is_silent (limit : Z) (e : env) (buf : string)
  (st : state) :
  capable e = true ->
  name_len buf <> O ->
  vetoed st buf = true ->
  pm_wake_lock limit e buf st = (0, st).
Proof.
  intros Hcap Hlen Hveto. unfold pm_wake_lock.
  rewrite Hcap. simpl negb. cbv iota.
  destruct (name_len buf) as [|n] eqn:E; [congruence|].
  simpl Nat.eqb. cbv iota.
  unfold vetoed in Hveto. rewrite Hveto. reflexivity.
Qed.

Lemma vetoed_request_is_silent_witness :
  pm_wake_lock 4 (env_priv 7) "wlan_timer 5000000" screen_off_state
    = (0, screen_off_state).
Proof.
  apply vetoed_request_is_silent; [reflexivity | | reflexivity].
  vm_compute. discriminate.
Defined.

(** ** Malformed timeout *)

(** C5, as amended: a privileged request that the filter does not veto,
    whose name is followed by a character other than a newline and whose
    remainder, leading white space skipped, [kstrtou64] rejects, fails with
    -EINVAL and leaves the state as it was. *)
Theorem bad_timeout_is_einval (limit : Z) (e : env) (buf : string)
  (st : state) (err : Z) :
  capable e = true ->
  vetoed st buf = false ->
  peek (trailer buf) <> 0 ->
  peek (trailer buf) <> 10 ->
  kstrtou64 (skip_spaces (trailer buf)) = inl err ->
  pm_wake_lock limit e buf st = (- EINVAL, st).
Proof.
  intros Hcap Hveto Hnul Hnl Hparse. unfold pm_wake_lock.
  rewrite Hcap. simpl negb. cbv iota.
  destruct (name_len buf =? 0)%nat eqn:E; [reflexivity|].
  unfold vetoed in Hveto. rewrite Hveto.
  fold (trailer buf).
  apply Z.eqb_neq in Hnul. apply Z.eqb_neq in Hnl.
  rewrite Hnul, Hnl. simpl. rewrite Hparse. reflexivity.
Qed.

Lemma bad_timeout_is_einval_witness :
  pm_wake_lock 4 (env_priv 7) "mylock 12ms" init_state
    = (- EINVAL, init_state).
Proof.
  apply (bad_timeout_is_einval 4 (env_priv 7) "mylock 12ms" init_state
           (- EINVAL)).
  - reflexivity.
  - reflexivity.
  - vm_compute. discriminate.
  - vm_compute. discriminate.
  - reflexivity.
Defined.

(** C5 as stated fails twice.  With the display off, "logd x" has the
    unparsable remainder " x", yet the filter runs before the parse and the
    call returns 0.  And a name ended by a newline is accepted whatever
    follows: "foo\nabc" returns 0 and creates the wakelock "foo". *)
Lemma bad_timeout_not_always_einval :
  (capable (env_priv 7) = true /\
   trailer "logd x" = " x"%string /\
   kstrtou64 (skip_spaces (trailer "logd x")) = inl (- EINVAL) /\
   pm_wake_lock 4 (env_priv 7) "logd x" screen_off_state
     = (0, screen_off_state)) /\
  (trailer ("foo" ++ nl ++ "abc") = (nl ++ "abc")%string /\
   kstrtou64 (skip_spaces (trailer ("foo" ++ nl ++ "abc"))) = inl (- EINVAL) /\
   fst (pm_wake_lock 4 (env_priv 7) ("foo" ++ nl ++ "abc") init_state) = 0 /\
   name_of (mem (acquire 4 7 ("foo" ++ nl ++ "abc") init_state)) 0%nat
     = "foo"%string /\
   number_of_wakelocks (acquire 4 7 ("foo" ++ nl ++ "abc") init_state) = 1).
Proof. vm_compute. repeat split; reflexivity. Qed.

(** ** The filter *)

Lemma uchar_inj (c1 c2 : ascii) : uchar c1 = uchar c2 -> c1 = c2.
Proof.
  unfold uchar. intros H. apply N2Z.inj in H.
  rewrite <- (ascii_N_embedding c1), <- (ascii_N_embedding c2). congruence.
Qed.

Lemma length_append (a b : string) :
  String.length (a ++ b) = (String.length a + String.length b)%nat.
Proof. induction a; simpl; congruence. Qed.

Lemma memcmp_eq_prefix (p s : string) :
  (String.length p <= String.length s)%nat ->
  memcmp_eq s p (String.length p) = true <-> exists b, s = (p ++ b)%string.
Proof.
  revert s. induction p as [|c p IH]; intros s Hlen; simpl.
  - split; [intros _; exists s; reflexivity | reflexivity].
  - destruct s as [|d s]; simpl in Hlen; [lia|].
    simpl. rewrite andb_true_iff, Z.eqb_eq, IH by lia.
    split.
    + intros [Hc [b ->]]. apply uchar_inj in Hc. subst. exists b. reflexivity.
    + intros [b Hb]. injection Hb as -> ->. split; [reflexivity | eauto].
Qed.

Lemma strstr_loop_spec (p s : string) :
  String.length p <> O ->
  non_null (strstr_loop s (String.length s) p (String.length p)) = true
  <-> contains s p.
Proof.
  intros Hp. induction s as [|d s IH].
  - simpl. destruct (String.length p) eqn:E; [congruence|]. simpl.
    split; [discriminate|].
    intros (a & b & H). destruct a; simpl in H.
    + destruct p; simpl in *; [lia | discriminate].
    + discriminate.
  - cbn [String.length strstr_loop].
    destruct (S (String.length s) <? String.length p)%nat eqn:Hlt.
    + apply Nat.ltb_lt in Hlt. simpl. split; [discriminate|].
      intros (a & b & H). apply (f_equal String.length) in H.
      rewrite !length_append in H. simpl in H. lia.
    + apply Nat.ltb_ge in Hlt.
      destruct (memcmp_eq (String d s) p (String.length p)) eqn:Hm.
      * simpl. split; [intros _|reflexivity].
        apply memcmp_eq_prefix in Hm; [|simpl; lia].
        destruct Hm as [b Hb]. exists EmptyString, b. exact Hb.
      * cbn [next]. rewrite IH. split.
        -- intros (a & b & ->). exists (String d a), b. reflexivity.
        -- intros (a & b & H). destruct a as [|d' a].
           ++ simpl in H. exfalso.
              assert (memcmp_eq (String d s) p (String.length p) = true).
              { apply memcmp_eq_prefix; [simpl; lia|]. exists b. exact H. }
              congruence.
           ++ simpl in H. injection H as -> ->. exists a, b. reflexivity.
Qed.

(** [strstr] finds exactly the substrings. *)
Lemma strstr_spec (s p : string) :
  non_null (strstr s p) = true <-> contains s p.
Proof.
  unfold strstr, strlen.
  destruct (String.length p =? 0)%nat eqn:E.
  - apply Nat.eqb_eq in E. destruct p; [|discriminate].
    simpl. split; [|reflexivity]. intros _. exists EmptyString, s. reflexivity.
  - apply Nat.eqb_neq in E. apply strstr_loop_spec; assumption.
Qed.

Lemma blocked_loop_spec (nm : string) (tbl : list string) :
  blocked_loop nm tbl = true <-> exists d, In d tbl /\ contains nm d.
Proof.
  induction tbl as [|p tbl IH]; simpl.
  - split; [discriminate | intros (d & [] & _)].
  - destruct (non_null (strstr nm p)) eqn:E.
    + split; [intros _ | reflexivity].
      exists p. split; [left; reflexivity | apply strstr_spec, E].
    + rewrite IH. split.
      * intros (d & Hin & Hc). exists d. split; [right|]; assumption.
      * intros (d & [<- | Hin] & Hc).
        -- apply strstr_spec in Hc. congruence.
        -- exists d. split; assumption.
Qed.

(** X20: the decision of the filter, as a function of the string it is handed:
    display off, no sensor event, no always-allowed marker, some deny-listed
    marker. *)
Lemma filter_decision (st : state) (s : string) :
  vetoed st s = true <->
  screen_is_off st = true /\ sensor_event_active st = false /\
  (forall a, In a always_allowed -> ~ contains s a) /\
  (exists d, In d blocked_wakelocks /\ contains s d).
Proof.
  unfold vetoed, should_block_wakelock.
  rewrite andb_true_iff.
  destruct (sensor_event_active st).
  { split; [intros [_ H]; discriminate | intros (_ & H & _); discriminate]. }
  match goal with
  | |- context [if ?c then false else _] => destruct c eqn:Hallow
  end.
  - split; [intros [_ H]; discriminate|].
    intros (_ & _ & Hno & _). exfalso.
    repeat (apply orb_true_iff in Hallow; destruct Hallow as [Hallow | Hallow]);
      apply strstr_spec in Hallow;
      (eapply Hno; [|exact Hallow]); simpl; tauto.
  - rewrite blocked_loop_spec.
    split.
    + intros [Hoff Hd]. repeat split; try assumption.
      intros a Hin Hc. apply strstr_spec in Hc.
      repeat (apply orb_false_iff in Hallow; destruct Hallow as [Hallow ?]).
      simpl in Hin.
      repeat (destruct Hin as [<- | Hin]; [congruence|]). destruct Hin.
    + intros (Hoff & _ & _ & Hd). split; assumption.
Qed.

(** C3 at the failing inputs: [pm_wake_lock] hands the filter the whole
    request, not the requested name.  With the display off and no sensor
    event, "foo logd" asks for the name "foo", which the filter would pass,
    and is dropped; "logd\naudio" asks for the name "logd", which the filter
    would veto, and creates the wakelock. *)
Theorem filter_reads_whole_request :
  (requested_name "foo logd" = "foo"%string /\
   vetoed screen_off_state "foo" = false /\
   pm_wake_lock 4 (env_priv 7) "foo logd" screen_off_state
     = (0, screen_off_state)) /\
  (requested_name ("logd" ++ nl ++ "audio") = "logd"%string /\
   vetoed screen_off_state "logd" = true /\
   fst (pm_wake_lock 4 (env_priv 7) ("logd" ++ nl ++ "audio")
          screen_off_state) = 0 /\
   mem (acquire 4 7 ("logd" ++ nl ++ "audio") screen_off_state) !! 0%nat
     = Some {| name := "logd";
               ws := {| active := true; last_time := 7;
                        timer_expires := None |} |}).
Proof. vm_compute. repeat split; reflexivity. Qed.

(** The scenario of the specification: with the display off, "logd" is
    dropped and does not show among the active wakelocks, "logd_audio" is
    let through. *)
Example filter_scenario :
  pm_wake_lock 4 (env_priv 7) "logd" screen_off_state
    = (0, screen_off_state) /\
  pm_show_wakelocks 4096 true (acquire 4 7 "logd" screen_off_state) = nl /\
  pm_show_wakelocks 4096 true (acquire 4 7 "logd_audio" screen_off_state)
    = ("logd_audio " ++ nl)%string.
Proof. vm_compute. repeat split; reflexivity. Qed.

(** ** Timeout conversion *)

(** X21: where the sum does not wrap, the conversion rounds up: the result is
    the least number of milliseconds that covers [timeout_ns]. *)
Lemma timeout_ms_rounds_up (timeout_ns : Z) :
  0 < timeout_ns <= ULLONG_MAX - (NSEC_PER_MSEC - 1) ->
  1 <= timeout_ms_of timeout_ns /\
  timeout_ns <= timeout_ms_of timeout_ns * NSEC_PER_MSEC /\
  (timeout_ms_of timeout_ns - 1) * NSEC_PER_MSEC < timeout_ns.
Proof.
  unfold timeout_ms_of, u64, ULLONG_MAX, NSEC_PER_MSEC. intros H.
  rewrite Z.mod_small by lia.
  pose proof (Z.div_mod (timeout_ns + 1000000 - 1) 1000000 ltac:(lia)) as Hd.
  pose proof (Z.mod_pos_bound (timeout_ns + 1000000 - 1) 1000000 ltac:(lia)).
  lia.
Qed.

Lemma timeout_ms_rounds_up_witness :
  1 <= timeout_ms_of 1 /\
  1 <= timeout_ms_of 1 * NSEC_PER_MSEC /\
  (timeout_ms_of 1 - 1) * NSEC_PER_MSEC < 1.
Proof. apply timeout_ms_rounds_up. vm_compute. split; [reflexivity | discriminate]. Defined.

(** C9 at the failing input: [timeout_ns + NSEC_PER_MSEC - 1] is computed in
    a [u64] and wraps.  For the timeout 2^64 - 1 the deadline handed to the
    wakeup source is 0 ms, not the 18446744073710 ms that rounding up gives,
    and the wakelock "a" ends up not held at all. *)
Theorem timeout_rounding_wraps :
  kstrtou64 "18446744073709551615" = inr ULLONG_MAX /\
  timeout_ms_of ULLONG_MAX = 0 /\
  (ULLONG_MAX + NSEC_PER_MSEC - 1) / NSEC_PER_MSEC = 18446744073710 /\
  fst (pm_wake_lock 4 (env_priv 7) "a 18446744073709551615" init_state) = 0 /\
  mem (acquire 4 7 "a 18446744073709551615" init_state) !! 0%nat
    = Some {| name := "a";
              ws := {| active := false; last_time := 7;
                       timer_expires := None |} |}.
Proof. vm_compute. repeat split; reflexivity. Qed.

(** ** Capacity *)

(** The check made before a creation lets a registry that already holds
    [CONFIG_PM_WAKELOCKS_LIMIT] wakelocks through. *)
Lemma limit_check_passes_at_limit (limit : Z) (st : state) :
  number_of_wakelocks st = limit ->
  wakelocks_limit_exceeded limit st = false.
Proof.
  intros H. unfold wakelocks_limit_exceeded. rewrite H.
  destruct (0 <? limit); [apply Z.ltb_irrefl | reflexivity].
Qed.

(** C1 at the failing input: with a limit of 2, three distinct names are
    created and the live count reaches 3; only the fourth name fails with
    -ENOSPC, and the existing names can still be acquired. *)
Theorem limit_is_exceeded_by_one :
  let st1 := acquire 2 7 "a" init_state in
  let st2 := acquire 2 8 "b" st1 in
  let st3 := acquire 2 9 "c" st2 in
  fst (pm_wake_lock 2 (env_priv 7) "a" init_state) = 0 /\
  fst (pm_wake_lock 2 (env_priv 8) "b" st1) = 0 /\
  fst (pm_wake_lock 2 (env_priv 9) "c" st2) = 0 /\
  number_of_wakelocks st3 = 3 /\
  rb_inorder (wakelocks_tree st3) = [0; 1; 2]%nat /\
  pm_wake_lock 2 (env_priv 10) "d" st3 = (- ENOSPC, st3) /\
  fst (pm_wake_lock 2 (env_priv 10) "a" st3) = 0 /\
  number_of_wakelocks (acquire 2 10 "a" st3) = 3.
Proof. vm_compute. repeat split; reflexivity. Qed.

(** ** The collector *)

Section ListFacts.
Context {A : Type} (P : A -> Prop) `{!forall x, Decision (P x)}.

Lemma filter_all (l : list A) : (forall x, x ∈ l -> P x) -> filter P l = l.
Proof.
  induction l as [|a l IH]; intros Hall; [reflexivity|].
  rewrite filter_cons_True by (apply Hall; left).
  f_equal. apply IH. intros x Hx. apply Hall. right. exact Hx.
Qed.

End ListFacts.

Lemma rb_inorder_join (l r : rb_node) :
  rb_inorder (rb_join l r) = rb_inorder l ++ rb_inorder r.
Proof.
  induction l as [|ll IHl e lr IHr]; simpl; [reflexivity|].
  rewrite IHr, <- app_assoc. reflexivity.
Qed.

Lemma rb_inorder_erase (wl : ptr) (t : rb_node) :
  NoDup (rb_inorder t) ->
  rb_inorder (rb_erase wl t) = filter (fun x => x ≠ wl) (rb_inorder t).
Proof.
  induction t as [|l IHl e r IHr]; simpl; [reflexivity|].
  intros Hnd. apply NoDup_app in Hnd as (Hl & Hlr & Hr).
  apply NoDup_cons in Hr as (Her & Hr).
  rewrite filter_app, filter_cons.
  destruct (decide (e = wl)) as [->|Hne].
  - rewrite rb_inorder_join.
    destruct (decide (wl ≠ wl)) as [?|_]; [congruence|].
    rewrite !filter_all; [reflexivity| |].
    + intros x Hx ->. contradiction.
    + intros x Hx ->. apply (Hlr wl Hx). left.
  - destruct (decide (e ≠ wl)) as [_|?]; [|tauto].
    simpl. rewrite IHl, IHr by assumption. reflexivity.
Qed.

Lemma filter_ext_in {A : Type} (P1 P2 : A -> Prop)
  `{!forall x, Decision (P1 x), !forall x, Decision (P2 x)} (l : list A) :
  (forall x, x ∈ l -> P1 x <-> P2 x) -> filter P1 l = filter P2 l.
Proof.
  induction l as [|a l IH]; intros Hiff; [reflexivity|].
  rewrite !filter_cons.
  assert (Ha : P1 a <-> P2 a) by (apply Hiff; left).
  rewrite IH by (intros x Hx; apply Hiff; right; exact Hx).
  destruct (decide (P1 a)), (decide (P2 a)); tauto.
Qed.

Lemma ws_of_delete (p q : ptr) (m : gmap ptr wakelock) :
  q ≠ p -> ws_of (delete p m) q = ws_of m q.
Proof.
  intros H. unfold ws_of. rewrite lookup_delete_ne by congruence. reflexivity.
Qed.

Lemma scanned_delete (now : Z) (p : ptr) (m : gmap ptr wakelock)
  (l : list ptr) :
  p ∉ l -> scanned now (delete p m) l = scanned now m l.
Proof.
  induction l as [|q l IH]; intros Hp; [reflexivity|].
  rewrite not_elem_of_cons in Hp. destruct Hp as [Hne Hp].
  simpl. unfold stale. rewrite ws_of_delete by congruence.
  rewrite IH by assumption. reflexivity.
Qed.

Lemma scanned_elem_of (now : Z) (m : gmap ptr wakelock) (l : list ptr) x :
  x ∈ scanned now m l -> x ∈ l.
Proof.
  induction l as [|q l IH]; simpl; [intros H; exact H|].
  destruct (stale now m q); [|intros H; inversion H].
  rewrite !elem_of_cons. intros [->|H]; [left; reflexivity | right; auto].
Qed.

(** The loop destroys, oldest first, the inactive wakelocks of the scanned
    prefix, all judged on the state the sweep starts from. *)
Lemma gc_scan_fold (limit now : Z) (l : list ptr) (st : state) :
  NoDup l ->
  gc_scan limit now l st
  = foldl (fun s wl => gc_destroy limit wl s) st
      (filter (fun wl => active (ws_of (mem st) wl) = false)
         (scanned now (mem st) l)).
Proof.
  revert st. induction l as [|p l IH]; intros st Hnd; [reflexivity|].
  apply NoDup_cons in Hnd as [Hp Hnd].
  cbn [gc_scan scanned]. unfold stale at 1.
  destruct (idle_time_ns now (ws_of (mem st) p) <?
            WL_GC_TIME_SEC * NSEC_PER_SEC) eqn:Hidle; simpl negb; cbv iota.
  { reflexivity. }
  rewrite filter_cons.
  destruct (active (ws_of (mem st) p)) eqn:Hact; simpl negb; cbv iota.
  - destruct (decide (true = false)) as [?|_]; [discriminate|].
    apply IH, Hnd.
  - destruct (decide (false = false)) as [_|?]; [|congruence].
    cbn [foldl]. rewrite IH by exact Hnd.
    f_equal.
    assert (Hmem : mem (gc_destroy limit p st) = delete p (mem st)).
    { unfold gc_destroy, decrement_wakelocks_number.
      destruct (0 <? limit); reflexivity. }
    rewrite Hmem, scanned_delete by exact Hp.
    apply filter_ext_in. intros x Hx.
    rewrite ws_of_delete; [reflexivity|].
    intros ->. apply Hp. eapply scanned_elem_of, Hx.
Qed.

Lemma u32_range (z : Z) : 0 <= u32 z < 2 ^ 32.
Proof. unfold u32. apply Z.mod_pos_bound. lia. Qed.

Lemma u32_sub (n k : Z) : u32 (u32 n - k) = u32 (n - k).
Proof. unfold u32. apply Zminus_mod_idemp_l. Qed.

Lemma gc_destroy_proj (limit : Z) (p : ptr) (st : state) :
  mem (gc_destroy limit p st) = delete p (mem st) /\
  wakelocks_tree (gc_destroy limit p st) = rb_erase p (wakelocks_tree st) /\
  wakelocks_lru_list (gc_destroy limit p st)
    = list_del p (wakelocks_lru_list st) /\
  number_of_wakelocks (gc_destroy limit p st)
    = (if 0 <? limit then u32 (number_of_wakelocks st - 1)
       else number_of_wakelocks st) /\
  wakelocks_gc_count (gc_destroy limit p st) = wakelocks_gc_count st /\
  wakelock_work (gc_destroy limit p st) = wakelock_work st /\
  screen_is_off (gc_destroy limit p st) = screen_is_off st /\
  sensor_event_active (gc_destroy limit p st) = sensor_event_active st.
Proof.
  unfold gc_destroy, decrement_wakelocks_number.
  destruct (0 <? limit); repeat split; reflexivity.
Qed.

Lemma destroy_all_spec (limit : Z) (vs : list ptr) (st : state) :
  NoDup (rb_inorder (wakelocks_tree st)) ->
  let st' := foldl (fun s wl => gc_destroy limit wl s) st vs in
  (forall p, mem st' !! p = if decide (p ∈ vs) then None else mem st !! p) /\
  wakelocks_lru_list st'
    = filter (fun p => p ∉ vs) (wakelocks_lru_list st) /\
  rb_inorder (wakelocks_tree st')
    = filter (fun p => p ∉ vs) (rb_inorder (wakelocks_tree st)) /\
  number_of_wakelocks st'
    = (if 0 <? limit
       then match vs with
            | [] => number_of_wakelocks st
            | _ => u32 (number_of_wakelocks st - Z.of_nat (length vs))
            end
       else number_of_wakelocks st) /\
  wakelocks_gc_count st' = wakelocks_gc_count st /\
  wakelock_work st' = wakelock_work st /\
  screen_is_off st' = screen_is_off st /\
  sensor_event_active st' = sensor_event_active st.
Proof.
  revert st. induction vs as [|v vs IH]; intros st Hnd; cbn [foldl].
  - cbv zeta. repeat split.
    + symmetry. apply filter_all. intros x _. apply not_elem_of_nil.
    + symmetry. apply filter_all. intros x _. apply not_elem_of_nil.
    + destruct (0 <? limit); reflexivity.
  - destruct (gc_destroy_proj limit v st)
      as (Hm & Ht & Hl & Hn & Hg & Hw & Hs & He).
    specialize (IH (gc_destroy limit v st)).
    rewrite Ht, rb_inorder_erase in IH by exact Hnd.
    specialize (IH (NoDup_filter _ _ Hnd)).
    cbv zeta in IH |- *.
    destruct IH as (IHm & IHl & IHt & IHn & IHg & IHw & IHs & IHe).
    repeat split.
    + intros p. rewrite IHm, Hm.
      destruct (decide (p ∈ vs)) as [Hin|Hin].
      * rewrite decide_True by (right; exact Hin). reflexivity.
      * destruct (decide (p = v)) as [->|Hne].
        -- rewrite decide_True by left. apply lookup_delete_eq.
        -- rewrite decide_False
             by (rewrite elem_of_cons; tauto).
           apply lookup_delete_ne. congruence.
    + rewrite IHl, Hl. unfold list_del. rewrite list_filter_filter.
      apply list_filter_iff. intros x. rewrite elem_of_cons. tauto.
    + rewrite IHt, list_filter_filter.
      apply list_filter_iff. intros x. rewrite elem_of_cons. tauto.
    + rewrite IHn, Hn. destruct (0 <? limit); [|reflexivity].
      destruct vs as [|v' vs].
      * reflexivity.
      * rewrite u32_sub. f_equal. cbn [length]. lia.
    + congruence.
    + congruence.
    + congruence.
    + congruence.
Qed.

Lemma rb_erase_other (wl p : ptr) (t : rb_node) :
  wl ≠ p -> wl ∈ rb_inorder t -> wl ∈ rb_inorder (rb_erase p t).
Proof.
  intros Hne. induction t as [|l IHl e r IHr]; simpl; [intros H; exact H|].
  rewrite elem_of_app, elem_of_cons.
  destruct (decide (e = p)) as [->|He].
  - rewrite rb_inorder_join, elem_of_app. tauto.
  - simpl. rewrite elem_of_app, elem_of_cons. tauto.
Qed.

(** A wakelock that is active when the loop reads it outlives the loop. *)
Lemma gc_scan_keeps_active (limit now : Z) (wl : ptr) (w : wakelock)
  (l : list ptr) (st : state) :
  mem st !! wl = Some w -> active (ws w) = true ->
  mem (gc_scan limit now l st) !! wl = Some w /\
  (wl ∈ wakelocks_lru_list st ->
   wl ∈ wakelocks_lru_list (gc_scan limit now l st)) /\
  (wl ∈ rb_inorder (wakelocks_tree st) ->
   wl ∈ rb_inorder (wakelocks_tree (gc_scan limit now l st))).
Proof.
  intros Hw Hact. revert st Hw.
  induction l as [|p l IH]; intros st Hw; cbn [gc_scan]; [tauto|].
  destruct (idle_time_ns now (ws_of (mem st) p) <?
            WL_GC_TIME_SEC * NSEC_PER_SEC); [tauto|].
  destruct (active (ws_of (mem st) p)) eqn:Hp; simpl negb; cbv iota;
    [apply IH, Hw|].
  assert (Hne : wl ≠ p).
  { intros ->. unfold ws_of in Hp. rewrite Hw in Hp. congruence. }
  destruct (gc_destroy_proj limit p st) as (Hm & Ht & Hl & _).
  destruct (IH (gc_destroy limit p st)) as (IHm & IHl & IHt).
  { rewrite Hm. rewrite lookup_delete_ne by congruence. exact Hw. }
  split; [exact IHm|]. split.
  - intros Hin. apply IHl. rewrite Hl. unfold list_del.
    apply list_elem_of_filter. split; assumption.
  - intros Hin. apply IHt. rewrite Ht. apply rb_erase_other; assumption.
Qed.

(** C2: a wakelock whose [active] flag is set when the sweep reads it is
    not destroyed, however long it has been idle: it stays in the store with
    its wakeup source, in the tree and in the LRU list, and the iteration
    that inspects it changes nothing, the live count included; it either
    stops the walk or moves on. *)
Theorem sweep_spares_active (limit now : Z) (st : state) (wl : ptr)
  (w : wakelock) :
  mem st !! wl = Some w ->
  active (ws w) = true ->
  let st' := __wakelocks_gc limit now st in
  mem st' !! wl = Some w /\
  (wl ∈ wakelocks_lru_list st -> wl ∈ wakelocks_lru_list st') /\
  (wl ∈ rb_inorder (wakelocks_tree st) ->
   wl ∈ rb_inorder (wakelocks_tree st')) /\
  (forall aux s, mem s !! wl = Some w ->
     gc_scan limit now (wl :: aux) s
     = if idle_time_ns now (ws w) <? WL_GC_TIME_SEC * NSEC_PER_SEC
       then s else gc_scan limit now aux s).
Proof.
  intros Hw Hact. cbv zeta. unfold __wakelocks_gc.
  destruct (gc_scan_keeps_active limit now wl w
              (reverse (wakelocks_lru_list st)) st Hw Hact) as (Hm & Hl & Ht).
  repeat split; try assumption.
  intros aux s Hs. cbn [gc_scan]. unfold ws_of. rewrite Hs, Hact.
  reflexivity.
Qed.

Lemma scanned_prefix (now : Z) (m : gmap ptr wakelock) (l : list ptr) :
  exists rest,
    l = scanned now m l ++ rest /\
    (forall wl, wl ∈ scanned now m l ->
       WL_GC_TIME_SEC * NSEC_PER_SEC <= idle_time_ns now (ws_of m wl)) /\
    match rest with
    | [] => True
    | wl :: _ => idle_time_ns now (ws_of m wl) < WL_GC_TIME_SEC * NSEC_PER_SEC
    end.
Proof.
  induction l as [|p l (rest & Hl & Hall & Hrest)]; simpl.
  - exists []. repeat split. intros wl H. inversion H.
  - unfold stale at 1 2.
    destruct (idle_time_ns now (ws_of m p) <? WL_GC_TIME_SEC * NSEC_PER_SEC)
      eqn:E; simpl negb; cbv iota.
    + exists (p :: l). repeat split.
      * intros wl H. inversion H.
      * apply Z.ltb_lt, E.
    + exists rest. repeat split.
      * simpl. f_equal. exact Hl.
      * intros wl. rewrite elem_of_cons. intros [->|H]; [|auto].
        apply Z.ltb_ge, E.
      * exact Hrest.
Qed.

(** What a sweep leaves: the collected wakelocks are gone from the store,
    the LRU list and the tree, and are counted off. *)
Lemma gc_sweep_effect (limit now : Z) (st : state) :
  wf st ->
  let victims := collected now st in
  let st' := __wakelocks_gc limit now st in
  (forall wl,
     mem st' !! wl = if decide (wl ∈ victims) then None else mem st !! wl) /\
  wakelocks_lru_list st'
    = filter (fun wl => wl ∉ victims) (wakelocks_lru_list st) /\
  rb_inorder (wakelocks_tree st')
    = filter (fun wl => wl ∉ victims) (rb_inorder (wakelocks_tree st)) /\
  number_of_wakelocks st'
    = (if 0 <? limit
       then u32 (number_of_wakelocks st - Z.of_nat (length victims))
       else number_of_wakelocks st).
Proof.
  intros Hwf. cbv zeta. unfold __wakelocks_gc.
  rewrite gc_scan_fold by (rewrite reverse_Permutation; apply Hwf).
  fold (collected now st).
  destruct (destroy_all_spec limit (collected now st) st
              (proj1 (proj2 (proj2 Hwf))))
    as (Hm & Hl & Ht & Hn & _).
  repeat split; try assumption.
  cbn [number_of_wakelocks set_gc_count]. rewrite Hn.
  destruct (0 <? limit); [|reflexivity].
  destruct (collected now st); [|reflexivity].
  simpl. rewrite Z.sub_0_r. unfold u32.
  symmetry. apply Z.mod_small, Hwf.
Qed.

(** C6: the sweep walks the LRU list from its tail, the least recently
    touched wakelock, towards its head; [scanned] is the run of wakelocks it
    meets before the first one whose idle time is below 300 s, where it
    stops.  Exactly the inactive wakelocks of that run are destroyed: freed
    with their wakeup source, erased from the tree, deleted from the LRU
    list, and counted off.  Active ones in the run are passed over and the
    walk goes on behind them. *)
Theorem sweep_collects_idle_prefix (limit now : Z) (st : state) :
  wf st ->
  let oldest_first := reverse (wakelocks_lru_list st) in
  let run := scanned now (mem st) oldest_first in
  let victims := collected now st in
  let st' := __wakelocks_gc limit now st in
  (exists rest,
     oldest_first = run ++ rest /\
     (forall wl, wl ∈ run ->
        WL_GC_TIME_SEC * NSEC_PER_SEC
          <= idle_time_ns now (ws_of (mem st) wl)) /\
     match rest with
     | [] => True
     | wl :: _ =>
         idle_time_ns now (ws_of (mem st) wl)
           < WL_GC_TIME_SEC * NSEC_PER_SEC
     end) /\
  (forall wl, wl ∈ victims <->
     wl ∈ run /\ active (ws_of (mem st) wl) = false) /\
  (forall wl,
     mem st' !! wl = if decide (wl ∈ victims) then None else mem st !! wl) /\
  wakelocks_lru_list st'
    = filter (fun wl => wl ∉ victims) (wakelocks_lru_list st) /\
  rb_inorder (wakelocks_tree st')
    = filter (fun wl => wl ∉ victims) (rb_inorder (wakelocks_tree st)) /\
  number_of_wakelocks st'
    = (if 0 <? limit
       then u32 (number_of_wakelocks st - Z.of_nat (length victims))
       else number_of_wakelocks st).
Proof.
  intros Hwf. cbv zeta.
  split; [apply scanned_prefix|].
  split.
  { intros wl. unfold collected. rewrite list_elem_of_filter. tauto. }
  apply (gc_sweep_effect limit now st Hwf).
Qed.

Lemma sweep_spares_active_witness :
  let w := {| name := "abc";
              ws := {| active := true; last_time := 7;
                       timer_expires := None |} |} in
  let now := 10 + WL_GC_TIME_SEC * NSEC_PER_SEC in
  let st' := __wakelocks_gc 8 now demo_state in
  mem st' !! 0%nat = Some w /\
  (0%nat ∈ wakelocks_lru_list demo_state -> 0%nat ∈ wakelocks_lru_list st') /\
  (0%nat ∈ rb_inorder (wakelocks_tree demo_state) ->
   0%nat ∈ rb_inorder (wakelocks_tree st')) /\
  (forall aux s, mem s !! 0%nat = Some w ->
     gc_scan 8 now (0%nat :: aux) s
     = if idle_time_ns now (ws w) <? WL_GC_TIME_SEC * NSEC_PER_SEC
       then s else gc_scan 8 now aux s).
Proof.
  apply (sweep_spares_active 8 (10 + WL_GC_TIME_SEC * NSEC_PER_SEC)
           demo_state 0%nat); reflexivity.
Defined.

Lemma wf_demo_state : wf demo_state.
Proof. decide_by_computation. Qed.

(** On [demo_state], 300 s after the release: the two older wakelocks are
    active and are passed over, the released one behind them is collected. *)
Example sweep_demo :
  let st' := __wakelocks_gc 8 (10 + WL_GC_TIME_SEC * NSEC_PER_SEC) demo_state in
  wakelocks_lru_list demo_state = [1; 2; 0]%nat /\
  collected (10 + WL_GC_TIME_SEC * NSEC_PER_SEC) demo_state = [1%nat] /\
  wakelocks_lru_list st' = [2; 0]%nat /\
  rb_inorder (wakelocks_tree st') = [2; 0]%nat /\
  mem st' !! 1%nat = None /\
  number_of_wakelocks demo_state = 3 /\
  number_of_wakelocks st' = 2.
Proof. vm_compute. repeat split; reflexivity. Qed.

Lemma sweep_collects_idle_prefix_witness :
  let now := 10 + WL_GC_TIME_SEC * NSEC_PER_SEC in
  let st := demo_state in
  let oldest_first := reverse (wakelocks_lru_list st) in
  let run := scanned now (mem st) oldest_first in
  let victims := collected now st in
  let st' := __wakelocks_gc 8 now st in
  (exists rest,
     oldest_first = run ++ rest /\
     (forall wl, wl ∈ run ->
        WL_GC_TIME_SEC * NSEC_PER_SEC
          <= idle_time_ns now (ws_of (mem st) wl)) /\
     match rest with
     | [] => True
     | wl :: _ =>
         idle_time_ns now (ws_of (mem st) wl)
           < WL_GC_TIME_SEC * NSEC_PER_SEC
     end) /\
  (forall wl, wl ∈ victims <->
     wl ∈ run /\ active (ws_of (mem st) wl) = false) /\
  (forall wl,
     mem st' !! wl = if decide (wl ∈ victims) then None else mem st !! wl) /\
  wakelocks_lru_list st'
    = filter (fun wl => wl ∉ victims) (wakelocks_lru_list st) /\
  rb_inorder (wakelocks_tree st')
    = filter (fun wl => wl ∉ victims) (rb_inorder (wakelocks_tree st)) /\
  number_of_wakelocks st'
    = (if 0 <? 8
       then u32 (number_of_wakelocks st - Z.of_nat (length victims))
       else number_of_wakelocks st).
Proof.
  apply (sweep_collects_idle_prefix 8 (10 + WL_GC_TIME_SEC * NSEC_PER_SEC)
           demo_state).
  decide_by_computation.
Defined.

(** ** The name index *)

Lemma strncmp_kstrndup (nm : string) (len : nat) :
  strncmp nm (kstrndup nm len) len = 0.
Proof.
  revert nm. induction len as [|len IH]; intros nm; [reflexivity|].
  destruct nm as [|c r]; [reflexivity|].
  cbn [strncmp kstrndup peek next]. rewrite Z.eqb_refl. simpl negb. cbv iota.
  destruct (uchar c =? 0); [reflexivity | apply IH].
Qed.

Lemma char_at_kstrndup (nm : string) (len : nat) :
  char_at (kstrndup nm len) len = 0.
Proof.
  revert nm. induction len as [|len IH]; intros nm.
  - destruct nm; reflexivity.
  - destruct nm as [|c r]; cbn [kstrndup char_at next].
    + clear IH. induction len; [reflexivity | assumption].
    + apply IH.
Qed.

Lemma kstrndup_strlen (nm : string) : kstrndup nm (strlen nm) = nm.
Proof. induction nm as [|c r IH]; simpl; congruence. Qed.

Lemma cstring_kstrndup (nm : string) (len : nat) :
  cstring nm = true -> cstring (kstrndup nm len) = true.
Proof.
  revert nm. induction len as [|len IH]; intros nm H.
  { destruct nm; reflexivity. }
  destruct nm as [|c r]; [reflexivity|].
  simpl in *. apply andb_true_iff in H as [Hc Hr].
  rewrite Hc. simpl. apply IH, Hr.
Qed.

(** The comparison of the search loop reports a match only for the very
    name asked for: [strncmp] equal over [len] characters and a NUL at
    [wl->name[len]] leave neither a proper prefix nor an extension. *)
Lemma name_match_eq (nm s : string) (len : nat) :
  cstring nm = true -> cstring s = true ->
  strncmp nm s len = 0 -> char_at s len = 0 ->
  s = kstrndup nm len.
Proof.
  revert nm s. induction len as [|len IH]; intros nm s Hnm Hs Hcmp Hat.
  - destruct s as [|c r]; [destruct nm; reflexivity|].
    simpl in Hs, Hat. rewrite Hat in Hs. discriminate.
  - cbn [strncmp] in Hcmp.
    destruct (peek nm =? peek s) eqn:Heq; simpl negb in Hcmp; cbv iota in Hcmp.
    2:{ destruct (peek nm <? peek s); discriminate. }
    apply Z.eqb_eq in Heq.
    destruct nm as [|c r], s as [|c' r']; simpl in Heq.
    + reflexivity.
    + simpl in Hs. rewrite <- Heq in Hs. discriminate.
    + simpl in Hnm. rewrite Heq in Hnm. discriminate.
    + apply uchar_inj in Heq. subst c'.
      simpl in Hnm, Hs. apply andb_true_iff in Hnm as [Hc Hr].
      apply andb_true_iff in Hs as [_ Hr'].
      cbn [peek] in Hcmp. apply negb_true_iff in Hc. rewrite Hc in Hcmp.
      cbn [kstrndup]. f_equal.
      apply IH; assumption.
Qed.

Lemma name_diff_self (m : gmap ptr wakelock) (nm : string) (len : nat)
  (wl : ptr) :
  name_of m wl = kstrndup nm len -> name_diff m nm len wl = None.
Proof.
  intros H. unfold name_diff.
  rewrite H, strncmp_kstrndup, char_at_kstrndup. reflexivity.
Qed.

Lemma name_diff_match (m : gmap ptr wakelock) (nm : string) (len : nat)
  (wl : ptr) :
  cstring nm = true -> cstring (name_of m wl) = true ->
  name_diff m nm len wl = None -> name_of m wl = kstrndup nm len.
Proof.
  intros Hnm Hs. unfold name_diff.
  destruct (strncmp nm (name_of m wl) len =? 0) eqn:Hcmp; [|discriminate].
  destruct (char_at (name_of m wl) len =? 0) eqn:Hat; [|discriminate].
  intros _. apply Z.eqb_eq in Hcmp, Hat. apply name_match_eq; assumption.
Qed.

Lemma lookup_walk_ext (m m' : gmap ptr wakelock) (nm : string) (len : nat)
  (t : rb_node) :
  (forall p, p ∈ rb_inorder t -> name_of m' p = name_of m p) ->
  lookup_walk m' nm len t = lookup_walk m nm len t.
Proof.
  induction t as [|l IHl e r IHr]; intros H; [reflexivity|].
  cbn [lookup_walk]. unfold name_diff.
  rewrite (H e) by (simpl; rewrite elem_of_app, elem_of_cons; tauto).
  rewrite IHl, IHr; [reflexivity| |];
    intros p Hp; apply H; simpl; rewrite elem_of_app, elem_of_cons; tauto.
Qed.

Lemma lookup_walk_found (m : gmap ptr wakelock) (nm : string) (len : nat)
  (t : rb_node) (wl : ptr) :
  lookup_walk m nm len t = inl wl ->
  wl ∈ rb_inorder t /\ name_diff m nm len wl = None.
Proof.
  induction t as [|l IHl e r IHr]; cbn [lookup_walk]; [discriminate|].
  cbn [rb_inorder]. rewrite elem_of_app, elem_of_cons.
  destruct (name_diff m nm len e) as [diff|] eqn:Hd.
  - destruct (diff <? 0).
    + destruct (lookup_walk m nm len l); [|discriminate].
      intros [= ->]. destruct IHl; tauto.
    + destruct (lookup_walk m nm len r); [|discriminate].
      intros [= ->]. destruct IHr; tauto.
  - intros [= ->]. tauto.
Qed.

(** Linking the new node into the slot the walk ended in: the next walk
    for the same name ends at the new node. *)
Lemma lookup_walk_link_new (m : gmap ptr wakelock) (nm : string) (len : nat)
  (t : rb_node) (node : slot) (wl : ptr) :
  lookup_walk m nm len t = inr node ->
  name_diff m nm len wl = None ->
  lookup_walk m nm len (rb_link_node wl node t) = inl wl.
Proof.
  intros Hwalk Hself. revert node Hwalk.
  induction t as [|l IHl e r IHr]; intros node; cbn [lookup_walk].
  - intros _. cbn [rb_link_node lookup_walk]. rewrite Hself. reflexivity.
  - destruct (name_diff m nm len e) as [diff|] eqn:Hd; [|discriminate].
    destruct (diff <? 0) eqn:Hlt.
    + destruct (lookup_walk m nm len l) as [|s] eqn:Hl; [discriminate|].
      intros [= <-]. cbn [rb_link_node lookup_walk].
      rewrite Hd, Hlt, (IHl s eq_refl). reflexivity.
    + destruct (lookup_walk m nm len r) as [|s] eqn:Hr; [discriminate|].
      intros [= <-]. cbn [rb_link_node lookup_walk].
      rewrite Hd, Hlt, (IHr s eq_refl). reflexivity.
Qed.

(** Linking a node leaves every walk that found its wakelock as it was. *)
Lemma lookup_walk_link_old (m : gmap ptr wakelock) (nm : string) (len : nat)
  (t : rb_node) (node : slot) (x wl : ptr) :
  lookup_walk m nm len t = inl wl ->
  lookup_walk m nm len (rb_link_node x node t) = inl wl.
Proof.
  revert node. induction t as [|l IHl e r IHr]; intros node;
    cbn [lookup_walk]; [discriminate|].
  destruct (name_diff m nm len e) as [diff|] eqn:Hd.
  - destruct (diff <? 0) eqn:Hlt.
    + destruct (lookup_walk m nm len l) as [w|] eqn:Hl; [|discriminate].
      intros [= ->].
      destruct node as [|[] node]; cbn [rb_link_node lookup_walk];
        rewrite Hd, Hlt; [rewrite Hl | rewrite (IHl node eq_refl) | rewrite Hl];
        reflexivity.
    + destruct (lookup_walk m nm len r) as [w|] eqn:Hr; [|discriminate].
      intros [= ->].
      destruct node as [|[] node]; cbn [rb_link_node lookup_walk];
        rewrite Hd, Hlt; [rewrite Hr | rewrite Hr | rewrite (IHr node eq_refl)];
        reflexivity.
  - intros [= ->].
    destruct node as [|[] node]; cbn [rb_link_node lookup_walk];
      rewrite Hd; reflexivity.
Qed.

Lemma rb_inorder_link (m : gmap ptr wakelock) (nm : string) (len : nat)
  (t : rb_node) (node : slot) (wl : ptr) :
  lookup_walk m nm len t = inr node ->
  rb_inorder (rb_link_node wl node t) ≡ₚ wl :: rb_inorder t.
Proof.
  revert node. induction t as [|l IHl e r IHr]; intros node;
    cbn [lookup_walk].
  - intros _. reflexivity.
  - destruct (name_diff m nm len e) as [diff|]; [|discriminate].
    destruct (diff <? 0).
    + destruct (lookup_walk m nm len l) as [|s] eqn:Hl; [discriminate|].
      intros [= <-]. cbn [rb_link_node rb_inorder].
      rewrite (IHl s eq_refl). reflexivity.
    + destruct (lookup_walk m nm len r) as [|s] eqn:Hr; [discriminate|].
      intros [= <-]. cbn [rb_link_node rb_inorder].
      rewrite (IHr s eq_refl).
      replace (rb_inorder l ++ e :: wl :: rb_inorder r)
        with ((rb_inorder l ++ [e]) ++ wl :: rb_inorder r)
        by (rewrite <- app_assoc; reflexivity).
      rewrite <- Permutation_middle, <- app_assoc. reflexivity.
Qed.

Lemma wf_tree_live (st : state) (p : ptr) :
  wf st -> p ∈ rb_inorder (wakelocks_tree st) <-> is_Some (mem st !! p).
Proof.
  intros (Ht & _). rewrite <- elem_of_dom, <- Ht, elem_of_list_to_set.
  reflexivity.
Qed.

Lemma wf_lru_live (st : state) (p : ptr) :
  wf st -> p ∈ wakelocks_lru_list st <-> is_Some (mem st !! p).
Proof.
  intros (_ & Hl & _). rewrite <- elem_of_dom, <- Hl, elem_of_list_to_set.
  reflexivity.
Qed.

Lemma wf_init_state : wf init_state.
Proof. decide_by_computation. Qed.

(** A call of [wakelock_lookup_add] either returns what the walk found, or
    fails, or creates; the first two leave the state alone. *)
Lemma lookup_add_found (limit : Z) (e : env) (nm : string) (len : nat)
  (add : bool) (st : state) (wl : ptr) :
  lookup_walk (mem st) nm len (wakelocks_tree st) = inl wl ->
  wakelock_lookup_add limit e nm len add st = (inr wl, st).
Proof. intros H. unfold wakelock_lookup_add. rewrite H. reflexivity. Qed.

Lemma lookup_add_error (limit : Z) (e : env) (nm : string) (len : nat)
  (add : bool) (st st1 : state) (err : Z) :
  wakelock_lookup_add limit e nm len add st = (inl err, st1) -> st1 = st.
Proof.
  unfold wakelock_lookup_add.
  destruct (lookup_walk (mem st) nm len (wakelocks_tree st)); [discriminate|].
  destruct (negb add); [intros [= _ <-]; reflexivity|].
  destruct (wakelocks_limit_exceeded limit st);
    [intros [= _ <-]; reflexivity|].
  destruct (negb (kzalloc_ok e)); [intros [= _ <-]; reflexivity|].
  destruct (negb (kstrndup_ok e)); [intros [= _ <-]; reflexivity|].
  destruct (negb (wakeup_source_register_ok e));
    [intros [= _ <-]; reflexivity|].
  discriminate.
Qed.

Lemma lookup_add_created (limit : Z) (e : env) (nm : string) (len : nat)
  (add : bool) (st st1 : state) (node : slot) (wl : ptr) :
  lookup_walk (mem st) nm len (wakelocks_tree st) = inr node ->
  wakelock_lookup_add limit e nm len add st = (inr wl, st1) ->
  wl = fresh (dom (mem st)) /\
  mem st1
    = <[wl := {| name := kstrndup nm len;
                 ws := {| active := false; last_time := ktime_get e;
                          timer_expires := None |} |}]> (mem st) /\
  wakelocks_tree st1 = rb_link_node wl node (wakelocks_tree st) /\
  wakelocks_lru_list st1 = wl :: wakelocks_lru_list st /\
  number_of_wakelocks st1
    = (if 0 <? limit then u32 (number_of_wakelocks st + 1)
       else number_of_wakelocks st) /\
  wakelocks_gc_count st1 = wakelocks_gc_count st /\
  wakelock_work st1 = wakelock_work st /\
  screen_is_off st1 = screen_is_off st /\
  sensor_event_active st1 = sensor_event_active st.
Proof.
  intros Hwalk. unfold wakelock_lookup_add. rewrite Hwalk.
  destruct (negb add); [discriminate|].
  destruct (wakelocks_limit_exceeded limit st); [discriminate|].
  destruct (negb (kzalloc_ok e)); [discriminate|].
  destruct (negb (kstrndup_ok e)); [discriminate|].
  destruct (negb (wakeup_source_register_ok e)); [discriminate|].
  intros [= <- <-]. unfold increment_wakelocks_number.
  destruct (0 <? limit); repeat split; reflexivity.
Qed.

Lemma wf_lookup_add (limit : Z) (e : env) (nm : string) (len : nat)
  (add : bool) (st st1 : state) (r : Z + ptr) :
  wf st -> cstring nm = true ->
  wakelock_lookup_add limit e nm len add st = (r, st1) ->
  wf st1.
Proof.
  intros Hwf Hnm Hcall.
  destruct (lookup_walk (mem st) nm len (wakelocks_tree st)) as [w|node]
    eqn:Hwalk.
  { rewrite (lookup_add_found _ _ _ _ _ _ _ Hwalk) in Hcall.
    injection Hcall as _ <-. exact Hwf. }
  destruct r as [err|wl].
  { apply lookup_add_error in Hcall. subst. exact Hwf. }
  destruct (lookup_add_created _ _ _ _ _ _ _ _ _ Hwalk Hcall)
    as (Hfresh & Hm & Ht & Hl & Hn & _).
  assert (Hnew : wl ∉ dom (mem st)) by (subst wl; apply is_fresh).
  destruct Hwf as (Wt & Wl & Wtn & Wln & Wnames & Wnum).
  unfold wf. rewrite Hm, Ht, Hl, Hn, dom_insert_L.
  repeat split.
  - rewrite (rb_inorder_link _ _ _ _ _ wl Hwalk). simpl. rewrite Wt.
    reflexivity.
  - simpl. rewrite Wl. reflexivity.
  - rewrite (rb_inorder_link _ _ _ _ _ wl Hwalk). apply NoDup_cons. split.
    + rewrite <- (elem_of_list_to_set (C:=gset ptr)), Wt. exact Hnew.
    + exact Wtn.
  - apply NoDup_cons. split.
    + rewrite <- (elem_of_list_to_set (C:=gset ptr)), Wl. exact Hnew.
    + exact Wln.
  - apply map_Forall_insert_2; [|exact Wnames].
    simpl. apply cstring_kstrndup, Hnm.
  - destruct (0 <? limit); [apply u32_range | apply Wnum].
  - destruct (0 <? limit); [apply u32_range | apply Wnum].
Qed.

Lemma name_of_insert_ne (m : gmap ptr wakelock) (wl p : ptr) (w : wakelock) :
  p ≠ wl -> name_of (<[wl := w]> m) p = name_of m p.
Proof.
  intros H. unfold name_of. rewrite lookup_insert_ne by congruence.
  reflexivity.
Qed.

(** What a successful call establishes: the walk now ends at the wakelock
    returned, walks that found a wakelock still find it, and live
    wakelocks are untouched. *)
Lemma lookup_add_ok (limit : Z) (e : env) (nm : string) (len : nat)
  (add : bool) (st st1 : state) (wl : ptr) :
  wf st ->
  wakelock_lookup_add limit e nm len add st = (inr wl, st1) ->
  lookup_walk (mem st1) nm len (wakelocks_tree st1) = inl wl /\
  (forall k klen w,
     lookup_walk (mem st) k klen (wakelocks_tree st) = inl w ->
     lookup_walk (mem st1) k klen (wakelocks_tree st1) = inl w) /\
  (forall p, is_Some (mem st !! p) -> mem st1 !! p = mem st !! p) /\
  is_Some (mem st1 !! wl).
Proof.
  intros Hwf Hcall.
  destruct (lookup_walk (mem st) nm len (wakelocks_tree st)) as [w|node]
    eqn:Hwalk.
  { rewrite (lookup_add_found _ _ _ _ _ _ _ Hwalk) in Hcall.
    injection Hcall as <- <-. repeat split; auto.
    apply (wf_tree_live _ _ Hwf). apply (lookup_walk_found _ _ _ _ _ Hwalk). }
  destruct (lookup_add_created _ _ _ _ _ _ _ _ _ Hwalk Hcall)
    as (Hfresh & Hm & Ht & _).
  assert (Hnew : wl ∉ dom (mem st)) by (subst wl; apply is_fresh).
  assert (Hold : forall p, p ∈ rb_inorder (wakelocks_tree st) ->
                 name_of (mem st1) p = name_of (mem st) p).
  { intros p Hp. rewrite Hm. apply name_of_insert_ne. intros ->.
    apply Hnew, elem_of_dom, (wf_tree_live _ _ Hwf), Hp. }
  rewrite Ht. repeat split.
  - apply lookup_walk_link_new.
    + rewrite (lookup_walk_ext _ _ _ _ _ Hold). exact Hwalk.
    + apply name_diff_self. unfold name_of. rewrite Hm, lookup_insert_eq.
      reflexivity.
  - intros k klen w Hk. apply lookup_walk_link_old.
    rewrite (lookup_walk_ext _ _ _ _ _ Hold). exact Hk.
  - intros p Hp. rewrite Hm. apply lookup_insert_ne. intros ->.
    apply Hnew, elem_of_dom, Hp.
  - rewrite Hm, lookup_insert_eq. eauto.
Qed.

Lemma lookup_add_name (limit : Z) (e : env) (nm : string) (len : nat)
  (add : bool) (st st1 : state) (wl : ptr) :
  wf st -> cstring nm = true ->
  wakelock_lookup_add limit e nm len add st = (inr wl, st1) ->
  name_of (mem st1) wl = kstrndup nm len.
Proof.
  intros Hwf Hnm Hcall.
  destruct (lookup_walk (mem st) nm len (wakelocks_tree st)) as [w|node]
    eqn:Hwalk.
  - rewrite (lookup_add_found _ _ _ _ _ _ _ Hwalk) in Hcall.
    injection Hcall as <- <-.
    destruct (lookup_walk_found _ _ _ _ _ Hwalk) as [Hin Hd].
    apply name_diff_match; [exact Hnm | | exact Hd].
    apply (wf_tree_live _ _ Hwf) in Hin as [x Hx].
    unfold name_of. rewrite Hx.
    destruct Hwf as (_ & _ & _ & _ & Wnames & _). apply (Wnames _ _ Hx).
  - destruct (lookup_add_created _ _ _ _ _ _ _ _ _ Hwalk Hcall)
      as (_ & Hm & _).
    unfold name_of. rewrite Hm, lookup_insert_eq. reflexivity.
Qed.

(** C7: when a call of [wakelock_lookup_add] with [add_if_not_found] set
    has returned a wakelock, a second call for the same name on the state
    the first one left returns the same wakelock and leaves that state as it
    is, so that nothing is created or counted twice.  The second call needs
    neither memory nor room under the limit. *)
Theorem find_or_create_twice (limit : Z) (e e' : env) (nm : string)
  (len : nat) (st st1 : state) (wl : ptr) :
  wf st ->
  wakelock_lookup_add limit e nm len true st = (inr wl, st1) ->
  wakelock_lookup_add limit e' nm len true st1 = (inr wl, st1).
Proof.
  intros Hwf Hcall. apply lookup_add_found.
  destruct (lookup_add_ok _ _ _ _ _ _ _ _ Hwf Hcall) as (Hwalk & _).
  exact Hwalk.
Qed.

Lemma find_or_create_twice_witness :
  wakelock_lookup_add 1 (env_unpriv 9) "wake" 4 true
    (snd (wakelock_lookup_add 1 (env_priv 7) "wake" 4 true init_state))
  = (inr 0%nat,
     snd (wakelock_lookup_add 1 (env_priv 7) "wake" 4 true init_state)).
Proof.
  apply (find_or_create_twice 1 (env_priv 7) (env_unpriv 9) "wake" 4
           init_state).
  - decide_by_computation.
  - vm_compute. reflexivity.
Defined.

(** Two different names, created one after the other, are two wakelocks,
    and each is found under its own name. *)
Lemma two_names_two_locks (limit : Z) (e1 e2 e3 e4 : env) (a b : string)
  (st st1 st2 : state) (wa wb : ptr) :
  wf st -> cstring a = true -> cstring b = true -> a <> b ->
  wakelock_lookup_add limit e1 a (strlen a) true st = (inr wa, st1) ->
  wakelock_lookup_add limit e2 b (strlen b) true st1 = (inr wb, st2) ->
  wa <> wb /\
  name_of (mem st2) wa = a /\
  name_of (mem st2) wb = b /\
  wakelock_lookup_add limit e3 a (strlen a) false st2 = (inr wa, st2) /\
  wakelock_lookup_add limit e4 b (strlen b) false st2 = (inr wb, st2).
Proof.
  intros Hwf Ha Hb Hab H1 H2.
  pose proof (wf_lookup_add _ _ _ _ _ _ _ _ Hwf Ha H1) as Hwf1.
  destruct (lookup_add_ok _ _ _ _ _ _ _ _ Hwf H1) as (Hw1 & _ & _ & Hlive1).
  destruct (lookup_add_ok _ _ _ _ _ _ _ _ Hwf1 H2) as (Hw2 & Hkeep & Hmem & _).
  pose proof (lookup_add_name _ _ _ _ _ _ _ _ Hwf Ha H1) as Hna.
  pose proof (lookup_add_name _ _ _ _ _ _ _ _ Hwf1 Hb H2) as Hnb.
  rewrite kstrndup_strlen in Hna, Hnb.
  assert (Hna2 : name_of (mem st2) wa = a).
  { unfold name_of in *. rewrite (Hmem _ Hlive1). exact Hna. }
  repeat split.
  - intros ->. congruence.
  - exact Hna2.
  - exact Hnb.
  - apply lookup_add_found, Hkeep, Hw1.
  - apply lookup_add_found, Hw2.
Qed.

Lemma cstring_append (a b : string) :
  cstring (a ++ b) = cstring a && cstring b.
Proof.
  induction a as [|c a IH]; simpl; [reflexivity|].
  rewrite IH, andb_assoc. reflexivity.
Qed.

Lemma strict_prefix_facts (p n : string) :
  strict_prefix p n -> cstring n = true -> cstring p = true /\ p <> n.
Proof.
  intros (s & Hs & ->) Hn. rewrite cstring_append in Hn.
  apply andb_true_iff in Hn as [Hp _]. split; [exact Hp|].
  intros H. apply (f_equal String.length) in H.
  rewrite length_append in H. destruct s; [congruence | simpl in H; lia].
Qed.

(** C8: two names of which one is a strict prefix of the other are two
    keys.  Created in either order, they are two different wakelocks, each
    carries its own name, a lookup of either name returns its own wakelock
    and changes nothing, and the comparison of the search loop does not
    report a match between one name and the wakelock of the other. *)
Theorem prefix_names_are_distinct_keys (limit : Z) (e1 e2 e3 e4 : env)
  (p n first second : string) (st st1 st2 : state) (w1 w2 : ptr) :
  wf st ->
  cstring n = true ->
  strict_prefix p n ->
  (first = p /\ second = n) \/ (first = n /\ second = p) ->
  wakelock_lookup_add limit e1 first (strlen first) true st = (inr w1, st1) ->
  wakelock_lookup_add limit e2 second (strlen second) true st1
    = (inr w2, st2) ->
  w1 <> w2 /\
  name_of (mem st2) w1 = first /\
  name_of (mem st2) w2 = second /\
  wakelock_lookup_add limit e3 first (strlen first) false st2
    = (inr w1, st2) /\
  wakelock_lookup_add limit e4 second (strlen second) false st2
    = (inr w2, st2) /\
  name_diff (mem st2) first (strlen first) w2 <> None /\
  name_diff (mem st2) second (strlen second) w1 <> None.
Proof.
  intros Hwf Hn Hpre Horder H1 H2.
  destruct (strict_prefix_facts _ _ Hpre Hn) as [Hp Hne].
  assert (Hc : cstring first = true /\ cstring second = true /\
               first <> second).
  { destruct Horder as [[-> ->] | [-> ->]]; repeat split; auto. }
  destruct Hc as (Hf & Hs & Hfs).
  destruct (two_names_two_locks limit e1 e2 e3 e4 first second st st1 st2
              w1 w2 Hwf Hf Hs Hfs H1 H2) as (Hw & Hn1 & Hn2 & Hl1 & Hl2).
  repeat split; try assumption.
  - intros Hd. apply name_diff_match in Hd;
      [| exact Hf | rewrite Hn2; exact Hs].
    rewrite kstrndup_strlen, Hn2 in Hd. congruence.
  - intros Hd. apply name_diff_match in Hd;
      [| exact Hs | rewrite Hn1; exact Hf].
    rewrite kstrndup_strlen, Hn1 in Hd. congruence.
Qed.

Lemma prefix_names_are_distinct_keys_witness :
  let st1 :=
    snd (wakelock_lookup_add 4 (env_priv 7) "wakeup" 6 true init_state) in
  let st2 := snd (wakelock_lookup_add 4 (env_priv 8) "wake" 4 true st1) in
  0%nat <> 1%nat /\
  name_of (mem st2) 0%nat = "wakeup"%string /\
  name_of (mem st2) 1%nat = "wake"%string /\
  wakelock_lookup_add 4 (env_priv 9) "wakeup" (strlen "wakeup") false st2
    = (inr 0%nat, st2) /\
  wakelock_lookup_add 4 (env_priv 9) "wake" (strlen "wake") false st2
    = (inr 1%nat, st2) /\
  name_diff (mem st2) "wakeup" (strlen "wakeup") 1%nat <> None /\
  name_diff (mem st2) "wake" (strlen "wake") 0%nat <> None.
Proof.
  apply (prefix_names_are_distinct_keys 4 (env_priv 7) (env_priv 8)
           (env_priv 9) (env_priv 9) "wake" "wakeup" "wakeup" "wake"
           init_state
           (snd (wakelock_lookup_add 4 (env_priv 7) "wakeup" 6 true
                   init_state))
           (snd (wakelock_lookup_add 4 (env_priv 8) "wake" 4 true
                   (snd (wakelock_lookup_add 4 (env_priv 7) "wakeup" 6 true
                           init_state))))
           0%nat 1%nat).
  - decide_by_computation.
  - reflexivity.
  - exists "up"%string. split; [discriminate | reflexivity].
  - right. split; reflexivity.
  - vm_compute. reflexivity.
  - vm_compute. reflexivity.
Defined.

(** ** Well-formedness is kept by every operation *)

Lemma wf_update_ws (f : wakeup_source -> wakeup_source) (wl : ptr)
  (st : state) :
  wf st -> wf (set_mem (update_ws f wl) st).
Proof.
  intros (Wt & Wl & Wtn & Wln & Wnames & Wnum). unfold wf, update_ws.
  cbn [mem wakelocks_tree wakelocks_lru_list number_of_wakelocks set_mem].
  destruct (mem st !! wl) as [w|] eqn:Hw;
    [|repeat split; try assumption; apply Wnum].
  assert (Hdom : dom (<[wl := {| name := name w; ws := f (ws w) |}]> (mem st))
                 = dom (mem st)).
  { rewrite dom_insert_L. apply elem_of_dom_2 in Hw.
    apply set_eq. intros x. rewrite elem_of_union, elem_of_singleton.
    split; [intros [->|Hx]; assumption | right; assumption]. }
  rewrite Hdom. repeat split; try assumption; try apply Wnum.
  apply map_Forall_insert_2; [|exact Wnames].
  simpl. apply (Wnames _ _ Hw).
Qed.

Lemma wf_lru_most_recent (wl : ptr) (st : state) :
  wf st -> is_Some (mem st !! wl) -> wf (wakelocks_lru_most_recent wl st).
Proof.
  intros Hwf Hlive. pose proof (proj2 (wf_lru_live _ wl Hwf) Hlive) as Hin.
  destruct Hwf as (Wt & Wl & Wtn & Wln & Wnames & Wnum).
  unfold wf, wakelocks_lru_most_recent, list_del.
  cbn [mem wakelocks_tree wakelocks_lru_list number_of_wakelocks set_lru].
  repeat split; try assumption; try apply Wnum.
  - rewrite <- Wl. apply set_eq. intros x.
    rewrite !elem_of_list_to_set, elem_of_cons, list_elem_of_filter.
    destruct (decide (x = wl)) as [->|]; tauto.
  - apply NoDup_cons. split.
    + rewrite list_elem_of_filter. tauto.
    + apply NoDup_filter, Wln.
Qed.

Lemma is_Some_update_ws (f : wakeup_source -> wakeup_source) (wl p : ptr)
  (m : gmap ptr wakelock) :
  is_Some (m !! p) -> is_Some (update_ws f wl m !! p).
Proof.
  intros Hp. unfold update_ws. destruct (m !! wl) eqn:Hw; [|exact Hp].
  destruct (decide (wl = p)) as [->|Hne].
  - rewrite lookup_insert_eq. eauto.
  - rewrite lookup_insert_ne by exact Hne. exact Hp.
Qed.

Theorem wf_pm_wake_lock (limit : Z) (e : env) (buf : string) (st : state) :
  wf st -> cstring buf = true -> wf (snd (pm_wake_lock limit e buf st)).
Proof.
  intros Hwf Hbuf. unfold pm_wake_lock.
  destruct (negb (capable e)); [exact Hwf|].
  destruct (name_len buf =? 0)%nat; [exact Hwf|].
  destruct (screen_is_off st && should_block_wakelock st buf); [exact Hwf|].
  match goal with
  | |- context [match ?p with inl _ => _ | inr _ => _ end] => destruct p as [err|t]
  end; [exact Hwf|].
  destruct (wakelock_lookup_add limit e buf (name_len buf) true st)
    as [[err|wl] st1] eqn:Hcall.
  - apply lookup_add_error in Hcall. subst. exact Hwf.
  - pose proof (wf_lookup_add _ _ _ _ _ _ _ _ Hwf Hbuf Hcall) as Hwf1.
    destruct (lookup_add_ok _ _ _ _ _ _ _ _ Hwf Hcall) as (_ & _ & _ & Hlive).
    cbn [snd].
    destruct (negb (t =? 0)); apply wf_lru_most_recent;
      try (apply wf_update_ws, Hwf1);
      cbn [mem set_mem]; apply is_Some_update_ws, Hlive.
Qed.

Lemma wf_wakelocks_gc (limit : Z) (e : env) (st : state) :
  wf st -> wf (wakelocks_gc e st).
Proof.
  intros Hwf. unfold wakelocks_gc.
  destruct (idle_cpu e); [exact Hwf|].
  match goal with |- context [if ?c then _ else _] => destruct c end;
    exact Hwf.
Qed.

Theorem wf_pm_wake_unlock (limit : Z) (e : env) (buf : string) (st : state) :
  wf st -> cstring buf = true -> wf (snd (pm_wake_unlock limit e buf st)).
Proof.
  intros Hwf Hbuf. unfold pm_wake_unlock.
  destruct (negb (capable e)); [exact Hwf|].
  destruct (strlen buf =? 0)%nat; [exact Hwf|].
  match goal with
  | |- context [(?n =? 0)%nat] => destruct (n =? 0)%nat eqn:E
  end; [exact Hwf|].
  match goal with
  | |- context [wakelock_lookup_add limit e buf ?n false st] =>
      destruct (wakelock_lookup_add limit e buf n false st)
        as [[err|wl] st1] eqn:Hcall
  end.
  - apply lookup_add_error in Hcall. subst. exact Hwf.
  - pose proof (wf_lookup_add _ _ _ _ _ _ _ _ Hwf Hbuf Hcall) as Hwf1.
    destruct (lookup_add_ok _ _ _ _ _ _ _ _ Hwf Hcall) as (_ & _ & _ & Hlive).
    cbn [snd]. apply (wf_wakelocks_gc limit).
    apply wf_lru_most_recent; [apply wf_update_ws, Hwf1|].
    cbn [mem set_mem]. apply is_Some_update_ws, Hlive.
Qed.

Theorem wf_wakelocks_gc_work (limit now : Z) (st : state) :
  wf st -> wf (__wakelocks_gc limit now st).
Proof.
  intros Hwf.
  destruct (gc_sweep_effect limit now st Hwf) as (Hm & Hl & Ht & Hn).
  cbv zeta in Hm, Hl, Ht, Hn.
  set (vs := collected now st) in *.
  set (st' := __wakelocks_gc limit now st) in *.
  assert (Hdom : forall p, p ∈ dom (mem st') <-> p ∈ dom (mem st) /\ p ∉ vs).
  { intros p. rewrite !elem_of_dom, Hm.
    destruct (decide (p ∈ vs)); [|tauto].
    split; [intros [x Hx]; discriminate | tauto]. }
  destruct Hwf as (Wt & Wl & Wtn & Wln & Wnames & Wnum).
  unfold wf. rewrite Hl, Ht. repeat split.
  - apply set_eq. intros p.
    rewrite Hdom, <- Wt, !elem_of_list_to_set, list_elem_of_filter. tauto.
  - apply set_eq. intros p.
    rewrite Hdom, <- Wl, !elem_of_list_to_set, list_elem_of_filter. tauto.
  - apply NoDup_filter, Wtn.
  - apply NoDup_filter, Wln.
  - intros p w Hp. rewrite Hm in Hp.
    destruct (decide (p ∈ vs)); [discriminate|]. apply (Wnames _ _ Hp).
  - rewrite Hn. destruct (0 <? limit); [apply u32_range | apply Wnum].
  - rewrite Hn. destruct (0 <? limit); [apply u32_range | apply Wnum].
Qed.

(** ** The tree is a search tree, whatever its shape *)

Lemma name_ltb_irrefl (a : string) : name_ltb a a = false.
Proof.
  induction a as [|c a IH]; [reflexivity|].
  simpl. rewrite Z.ltb_irrefl, Z.eqb_refl, IH. reflexivity.
Qed.

Lemma name_ltb_trans (a b c : string) :
  name_ltb a b = true -> name_ltb b c = true -> name_ltb a c = true.
Proof.
  revert b c. induction a as [|x a IH]; intros [|y b] [|z c]; simpl;
    try congruence.
  rewrite !orb_true_iff, !andb_true_iff, !Z.ltb_lt, !Z.eqb_eq.
  intros [Hxy | [Hxy Hab]] [Hyz | [Hyz Hbc]].
  - left. lia.
  - left. lia.
  - left. lia.
  - right. split; [lia | eapply IH; eassumption].
Qed.

Lemma cstring_peek (s : string) : cstring s = true -> peek s = 0 -> s = EmptyString.
Proof.
  destruct s as [|c r]; [reflexivity|]. simpl. intros H Hc.
  rewrite Hc in H. discriminate.
Qed.

Lemma char_at_nil (i : nat) : char_at EmptyString i = 0.
Proof. induction i; [reflexivity | assumption]. Qed.

Lemma uchar_nonneg (c : ascii) : 0 <= uchar c.
Proof. unfold uchar. lia. Qed.

(** What the sign of [strncmp], and the NUL test after a zero, say about
    the name asked for and the name held by the node. *)
Lemma strncmp_order (nm s : string) (len : nat) :
  cstring nm = true -> cstring s = true ->
  (strncmp nm s len < 0 -> name_ltb (kstrndup nm len) s = true) /\
  (0 < strncmp nm s len -> name_ltb s (kstrndup nm len) = true) /\
  (strncmp nm s len = 0 ->
   (char_at s len <> 0 -> name_ltb (kstrndup nm len) s = true) /\
   (char_at s len = 0 -> s = kstrndup nm len)).
Proof.
  revert nm s. induction len as [|len IH]; intros nm s Hnm Hs.
  - assert (Hk : kstrndup nm 0 = EmptyString) by (destruct nm; reflexivity).
    rewrite Hk. cbn [strncmp char_at].
    split; [lia|]. split; [lia|]. intros _. split.
    + destruct s; simpl; [congruence | reflexivity].
    + apply cstring_peek, Hs.
  - cbn [strncmp].
    destruct (peek nm =? peek s) eqn:Heq; simpl negb; cbv iota.
    + apply Z.eqb_eq in Heq.
      destruct (peek nm =? 0) eqn:Hz.
      * apply Z.eqb_eq in Hz.
        assert (nm = EmptyString) by (apply cstring_peek; assumption).
        assert (s = EmptyString) by (apply cstring_peek; [assumption|lia]).
        subst. cbn [kstrndup]. rewrite char_at_nil.
        repeat split; try lia; try reflexivity; congruence.
      * apply Z.eqb_neq in Hz.
        destruct nm as [|c r]; [simpl in Hz; lia|].
        destruct s as [|d r']; [simpl in Heq, Hz; lia|].
        simpl in Heq. apply uchar_inj in Heq. subst d.
        simpl in Hnm, Hs.
        apply andb_true_iff in Hnm as [_ Hr].
        apply andb_true_iff in Hs as [_ Hr'].
        destruct (IH r r' Hr Hr') as (Hlt & Hgt & Hz0).
        cbn [next kstrndup char_at name_ltb].
        rewrite Z.ltb_irrefl, Z.eqb_refl. simpl orb. simpl andb.
        split; [exact Hlt|]. split; [exact Hgt|].
        intros E. destruct (Hz0 E) as [Hne' Heq']. split; [exact Hne'|].
        intros E'. f_equal. apply Heq', E'.
    + apply Z.eqb_neq in Heq.
      destruct (peek nm <? peek s) eqn:Hlt.
      * apply Z.ltb_lt in Hlt.
        split; [intros _ | split; [lia | lia]].
        destruct s as [|d r'].
        { simpl in Hlt. destruct nm; simpl in Hlt;
            [lia | pose proof (uchar_nonneg a); lia]. }
        destruct nm as [|c r]; [reflexivity|].
        simpl in Hlt. cbn [kstrndup name_ltb].
        apply Z.ltb_lt in Hlt. rewrite Hlt. reflexivity.
      * apply Z.ltb_ge in Hlt.
        split; [lia | split; [intros _ | lia]].
        destruct nm as [|c r].
        { simpl in Hlt, Heq. destruct s; simpl in Hlt, Heq;
            [lia | pose proof (uchar_nonneg a); lia]. }
        destruct s as [|d r']; [reflexivity|].
        simpl in Hlt, Heq. cbn [kstrndup name_ltb].
        assert (H : (uchar d <? uchar c) = true) by (apply Z.ltb_lt; lia).
        rewrite H. reflexivity.
Qed.

(** The three outcomes of one iteration of the search loop. *)
Lemma name_diff_order (m : gmap ptr wakelock) (nm : string) (len : nat)
  (wl : ptr) :
  cstring nm = true -> cstring (name_of m wl) = true ->
  match name_diff m nm len wl with
  | None => name_of m wl = kstrndup nm len
  | Some diff =>
      if diff <? 0 then name_ltb (kstrndup nm len) (name_of m wl) = true
      else name_ltb (name_of m wl) (kstrndup nm len) = true
  end.
Proof.
  intros Hnm Hs. unfold name_diff.
  destruct (strncmp_order nm (name_of m wl) len Hnm Hs) as (Hlt & Hgt & Hz).
  destruct (strncmp nm (name_of m wl) len =? 0) eqn:E.
  - apply Z.eqb_eq in E. destruct (Hz E) as [Hne Heq].
    destruct (char_at (name_of m wl) len =? 0) eqn:E'.
    + apply Z.eqb_eq in E'. simpl. auto.
    + apply Z.eqb_neq in E'. simpl. auto.
  - apply Z.eqb_neq in E.
    destruct (strncmp nm (name_of m wl) len <? 0) eqn:E'.
    + apply Z.ltb_lt in E'. auto.
    + apply Z.ltb_ge in E'. apply Hgt. lia.
Qed.

Lemma wf_names_ok (st : state) :
  wf st -> names_ok (mem st) (rb_inorder (wakelocks_tree st)).
Proof.
  intros Hwf p Hp. apply (wf_tree_live _ _ Hwf) in Hp as [w Hw].
  unfold name_of. rewrite Hw.
  destruct Hwf as (_ & _ & _ & _ & Wnames & _). apply (Wnames _ _ Hw).
Qed.

(** In a search tree the walk finds every wakelock by its name, whatever
    the shape of the tree. *)
Lemma lookup_walk_complete (m : gmap ptr wakelock) (nm : string) (len : nat)
  (t : rb_node) (w : ptr) :
  cstring nm = true ->
  names_ok m (rb_inorder t) ->
  StronglySorted (name_before m) (rb_inorder t) ->
  w ∈ rb_inorder t ->
  name_of m w = kstrndup nm len ->
  lookup_walk m nm len t = inl w.
Proof.
  intros Hnm. induction t as [|l IHl e r IHr]; intros Hok Hsort Hin Hname.
  { inversion Hin. }
  cbn [rb_inorder] in *.
  apply StronglySorted_app in Hsort as (Hlr & Hsl & Hser).
  apply StronglySorted_cons in Hser as (Her & Hsr).
  rewrite Forall_forall in Her.
  assert (Hle : forall x, x ∈ rb_inorder l -> name_before m x e).
  { intros x Hx. apply Hlr; [exact Hx | left]. }
  assert (Hokl : names_ok m (rb_inorder l)).
  { intros p Hp. apply Hok. rewrite elem_of_app. tauto. }
  assert (Hokr : names_ok m (rb_inorder r)).
  { intros p Hp. apply Hok. rewrite elem_of_app, elem_of_cons. tauto. }
  assert (Hoke : cstring (name_of m e) = true).
  { apply Hok. rewrite elem_of_app, elem_of_cons. tauto. }
  pose proof (name_diff_order m nm len e Hnm Hoke) as Hd.
  rewrite elem_of_app, elem_of_cons in Hin.
  unfold name_before in *.
  cbn [lookup_walk].
  destruct (name_diff m nm len e) as [diff|].
  - destruct (diff <? 0).
    + rewrite IHl; [reflexivity | exact Hokl | exact Hsl | | exact Hname].
      destruct Hin as [Hin | [-> | Hin]]; [exact Hin | |]; exfalso.
      * rewrite Hname, name_ltb_irrefl in Hd. discriminate.
      * specialize (Her _ Hin). rewrite Hname in Her.
        pose proof (name_ltb_trans _ _ _ Hd Her) as Hkk.
        rewrite name_ltb_irrefl in Hkk. discriminate.
    + rewrite IHr; [reflexivity | exact Hokr | exact Hsr | | exact Hname].
      destruct Hin as [Hin | [-> | Hin]]; [| | exact Hin]; exfalso.
      * specialize (Hle _ Hin). rewrite Hname in Hle.
        pose proof (name_ltb_trans _ _ _ Hle Hd) as Hkk.
        rewrite name_ltb_irrefl in Hkk. discriminate.
      * rewrite Hname, name_ltb_irrefl in Hd. discriminate.
  - destruct Hin as [Hin | [-> | Hin]]; [exfalso | reflexivity | exfalso].
    + specialize (Hle _ Hin). rewrite Hname, Hd, name_ltb_irrefl in Hle.
      discriminate.
    + specialize (Her _ Hin). rewrite Hname, Hd, name_ltb_irrefl in Her.
      discriminate.
Qed.

(** X23: two search trees over the same wakelocks answer every lookup alike:
    the rotations of [rb_insert_color] and [rb_erase], which the model
    leaves out, cannot change what a lookup returns. *)
Theorem lookup_independent_of_shape (m : gmap ptr wakelock) (nm : string)
  (len : nat) (t1 t2 : rb_node) (w : ptr) :
  cstring nm = true ->
  names_ok m (rb_inorder t1) ->
  StronglySorted (name_before m) (rb_inorder t1) ->
  StronglySorted (name_before m) (rb_inorder t2) ->
  (forall p, p ∈ rb_inorder t1 <-> p ∈ rb_inorder t2) ->
  lookup_walk m nm len t1 = inl w <-> lookup_walk m nm len t2 = inl w.
Proof.
  intros Hnm Hok1 Hs1 Hs2 Hsame.
  assert (Hok2 : names_ok m (rb_inorder t2)).
  { intros p Hp. apply Hok1, Hsame, Hp. }
  split; intros Hw; destruct (lookup_walk_found _ _ _ _ _ Hw) as [Hin Hd].
  - apply lookup_walk_complete; try assumption; [apply Hsame, Hin|].
    apply name_diff_match; [exact Hnm | apply Hok1, Hin | exact Hd].
  - apply lookup_walk_complete; try assumption; [apply Hsame, Hin|].
    apply name_diff_match; [exact Hnm | apply Hok2, Hin | exact Hd].
Qed.

(** No two wakelocks of a search tree carry the same name. *)
Lemma search_tree_unique_names (m : gmap ptr wakelock) (l : list ptr)
  (p q : ptr) :
  StronglySorted (name_before m) l ->
  p ∈ l -> q ∈ l -> name_of m p = name_of m q -> p = q.
Proof.
  induction 1 as [|x l Hs IH Hx]; intros Hp Hq Heq; [inversion Hp|].
  rewrite Forall_forall in Hx. unfold name_before in Hx.
  rewrite elem_of_cons in Hp, Hq.
  destruct Hp as [-> | Hp], Hq as [-> | Hq].
  - reflexivity.
  - specialize (Hx _ Hq). rewrite Heq, name_ltb_irrefl in Hx. discriminate.
  - specialize (Hx _ Hp). rewrite <- Heq, name_ltb_irrefl in Hx.
    discriminate.
  - apply IH; assumption.
Qed.

Lemma StronglySorted_filter {A : Type} (R : relation A) (P : A -> Prop)
  `{!forall x, Decision (P x)} (l : list A) :
  StronglySorted R l -> StronglySorted R (filter P l).
Proof.
  induction 1 as [|x l Hs IH Hx]; [constructor|].
  rewrite filter_cons. destruct (decide (P x)); [|exact IH].
  constructor; [exact IH|].
  rewrite Forall_forall in *. intros y Hy.
  apply list_elem_of_filter in Hy as [_ Hy]. apply Hx, Hy.
Qed.

Lemma StronglySorted_ext {A : Type} (R1 R2 : relation A) (l : list A) :
  (forall x y, x ∈ l -> y ∈ l -> R1 x y -> R2 x y) ->
  StronglySorted R1 l -> StronglySorted R2 l.
Proof.
  intros Hext Hs. induction Hs as [|x l Hs IH Hx]; [constructor|].
  constructor.
  - apply IH. intros a b Ha Hb. apply Hext; right; assumption.
  - rewrite Forall_forall in *. intros y Hy.
    apply Hext; [left | right; exact Hy | apply Hx, Hy].
Qed.

(** Where the walk ends is where the name belongs: the new node lands
    between the wakelocks with smaller names and those with greater ones. *)
Lemma rb_link_node_split (m : gmap ptr wakelock) (nm : string) (len : nat)
  (t : rb_node) (node : slot) (wl : ptr) :
  cstring nm = true ->
  names_ok m (rb_inorder t) ->
  StronglySorted (name_before m) (rb_inorder t) ->
  lookup_walk m nm len t = inr node ->
  name_of m wl = kstrndup nm len ->
  exists l1 l2,
    rb_inorder t = l1 ++ l2 /\
    rb_inorder (rb_link_node wl node t) = l1 ++ wl :: l2 /\
    (forall x, x ∈ l1 -> name_before m x wl) /\
    (forall x, x ∈ l2 -> name_before m wl x).
Proof.
  intros Hnm. revert node.
  induction t as [|l IHl e r IHr]; intros node Hok Hsort Hwalk Hname.
  { exists [], []. repeat split; intros x Hx; inversion Hx. }
  cbn [rb_inorder] in *.
  apply StronglySorted_app in Hsort as (Hlr & Hsl & Hser).
  apply StronglySorted_cons in Hser as (Her & Hsr).
  rewrite Forall_forall in Her.
  assert (Hle : forall x, x ∈ rb_inorder l -> name_before m x e).
  { intros x Hx. apply Hlr; [exact Hx | left]. }
  assert (Hokl : names_ok m (rb_inorder l)).
  { intros p Hp. apply Hok. rewrite elem_of_app. tauto. }
  assert (Hokr : names_ok m (rb_inorder r)).
  { intros p Hp. apply Hok. rewrite elem_of_app, elem_of_cons. tauto. }
  assert (Hoke : cstring (name_of m e) = true).
  { apply Hok. rewrite elem_of_app, elem_of_cons. tauto. }
  pose proof (name_diff_order m nm len e Hnm Hoke) as Hd.
  cbn [lookup_walk] in Hwalk.
  destruct (name_diff m nm len e) as [diff|]; [|discriminate].
  unfold name_before in *.
  destruct (diff <? 0).
  - destruct (lookup_walk m nm len l) as [|s] eqn:Hl; [discriminate|].
    injection Hwalk as <-.
    destruct (IHl s Hokl Hsl eq_refl Hname) as (a & b & Hab & Hlink & Ha & Hb).
    exists a, (b ++ e :: rb_inorder r).
    cbn [rb_link_node rb_inorder]. rewrite Hlink, Hab, <- !app_assoc.
    repeat split; [exact Ha|].
    intros x. rewrite elem_of_app, elem_of_cons.
    intros [Hx | [-> | Hx]].
    + apply Hb, Hx.
    + rewrite Hname. exact Hd.
    + rewrite Hname. eapply name_ltb_trans; [exact Hd | apply Her, Hx].
  - destruct (lookup_walk m nm len r) as [|s] eqn:Hr; [discriminate|].
    injection Hwalk as <-.
    destruct (IHr s Hokr Hsr eq_refl Hname) as (a & b & Hab & Hlink & Ha & Hb).
    exists (rb_inorder l ++ e :: a), b.
    cbn [rb_link_node rb_inorder]. rewrite Hlink, Hab, <- !app_assoc.
    repeat split; [|exact Hb].
    intros x. rewrite elem_of_app, elem_of_cons.
    intros [Hx | [-> | Hx]].
    + rewrite Hname. eapply name_ltb_trans; [apply Hle, Hx | exact Hd].
    + rewrite Hname. exact Hd.
    + apply Ha, Hx.
Qed.

Lemma rb_link_node_sorted (m : gmap ptr wakelock) (nm : string) (len : nat)
  (t : rb_node) (node : slot) (wl : ptr) :
  cstring nm = true ->
  names_ok m (rb_inorder t) ->
  StronglySorted (name_before m) (rb_inorder t) ->
  lookup_walk m nm len t = inr node ->
  name_of m wl = kstrndup nm len ->
  StronglySorted (name_before m) (rb_inorder (rb_link_node wl node t)).
Proof.
  intros Hnm Hok Hsort Hwalk Hname.
  destruct (rb_link_node_split m nm len t node wl Hnm Hok Hsort Hwalk Hname)
    as (l1 & l2 & Ht & Hlink & H1 & H2).
  rewrite Hlink. rewrite Ht in Hsort.
  apply StronglySorted_app in Hsort as (H12 & Hs1 & Hs2).
  apply StronglySorted_app. repeat split; [|exact Hs1|].
  - intros x1 x2 Hx1. rewrite elem_of_cons. intros [-> | Hx2].
    + apply H1, Hx1.
    + apply H12; assumption.
  - constructor; [exact Hs2|]. rewrite Forall_forall. exact H2.
Qed.

Lemma name_of_update_ws (f : wakeup_source -> wakeup_source) (wl p : ptr)
  (m : gmap ptr wakelock) :
  name_of (update_ws f wl m) p = name_of m p.
Proof.
  unfold update_ws, name_of. destruct (m !! wl) as [w|] eqn:Hw; [|reflexivity].
  destruct (decide (wl = p)) as [->|Hne].
  - rewrite lookup_insert_eq, Hw. reflexivity.
  - rewrite lookup_insert_ne by exact Hne. reflexivity.
Qed.

Lemma search_tree_lookup_add (limit : Z) (e : env) (nm : string) (len : nat)
  (add : bool) (st st1 : state) (r : Z + ptr) :
  wf st -> search_tree st -> cstring nm = true ->
  wakelock_lookup_add limit e nm len add st = (r, st1) ->
  search_tree st1.
Proof.
  intros Hwf Hst Hnm Hcall.
  destruct (lookup_walk (mem st) nm len (wakelocks_tree st)) as [w|node]
    eqn:Hwalk.
  { rewrite (lookup_add_found _ _ _ _ _ _ _ Hwalk) in Hcall.
    injection Hcall as _ <-. exact Hst. }
  destruct r as [err|wl].
  { apply lookup_add_error in Hcall. subst. exact Hst. }
  destruct (lookup_add_created _ _ _ _ _ _ _ _ _ Hwalk Hcall)
    as (Hfresh & Hm & Ht & _).
  assert (Hnew : wl ∉ dom (mem st)) by (subst wl; apply is_fresh).
  assert (Hold : forall p, p ∈ rb_inorder (wakelocks_tree st) ->
                 name_of (mem st1) p = name_of (mem st) p).
  { intros p Hp. rewrite Hm. apply name_of_insert_ne. intros ->.
    apply Hnew, elem_of_dom, (wf_tree_live _ _ Hwf), Hp. }
  unfold search_tree. rewrite Ht.
  apply (rb_link_node_sorted _ nm len); [exact Hnm | | | |].
  - intros p Hp. rewrite (Hold _ Hp). apply (wf_names_ok _ Hwf), Hp.
  - eapply StronglySorted_ext; [|exact Hst].
    intros x y Hx Hy. unfold name_before.
    rewrite (Hold _ Hx), (Hold _ Hy). tauto.
  - rewrite (lookup_walk_ext _ _ _ _ _ Hold). exact Hwalk.
  - unfold name_of. rewrite Hm, lookup_insert_eq. reflexivity.
Qed.

Lemma search_tree_update_ws (f : wakeup_source -> wakeup_source) (wl : ptr)
  (st : state) :
  search_tree st -> search_tree (set_mem (update_ws f wl) st).
Proof.
  unfold search_tree. cbn [mem wakelocks_tree set_mem].
  apply StronglySorted_ext. intros x y _ _. unfold name_before.
  rewrite !name_of_update_ws. tauto.
Qed.

Theorem search_tree_pm_wake_lock (limit : Z) (e : env) (buf : string)
  (st : state) :
  wf st -> search_tree st -> cstring buf = true ->
  search_tree (snd (pm_wake_lock limit e buf st)).
Proof.
  intros Hwf Hst Hbuf. unfold pm_wake_lock.
  destruct (negb (capable e)); [exact Hst|].
  destruct (name_len buf =? 0)%nat; [exact Hst|].
  destruct (screen_is_off st && should_block_wakelock st buf); [exact Hst|].
  match goal with
  | |- context [match ?p with inl _ => _ | inr _ => _ end] =>
      destruct p as [err|t]
  end; [exact Hst|].
  destruct (wakelock_lookup_add limit e buf (name_len buf) true st)
    as [[err|wl] st1] eqn:Hcall.
  - apply lookup_add_error in Hcall. subst. exact Hst.
  - pose proof (search_tree_lookup_add _ _ _ _ _ _ _ _ Hwf Hst Hbuf Hcall)
      as Hst1.
    cbn [snd]. destruct (negb (t =? 0));
      apply (search_tree_update_ws _ wl st1 Hst1).
Qed.

Theorem search_tree_pm_wake_unlock (limit : Z) (e : env) (buf : string)
  (st : state) :
  wf st -> search_tree st -> cstring buf = true ->
  search_tree (snd (pm_wake_unlock limit e buf st)).
Proof.
  intros Hwf Hst Hbuf. unfold pm_wake_unlock.
  destruct (negb (capable e)); [exact Hst|].
  destruct (strlen buf =? 0)%nat; [exact Hst|].
  match goal with
  | |- context [(?n =? 0)%nat] => destruct (n =? 0)%nat eqn:E
  end; [exact Hst|].
  match goal with
  | |- context [wakelock_lookup_add limit e buf ?n false st] =>
      destruct (wakelock_lookup_add limit e buf n false st)
        as [[err|wl] st1] eqn:Hcall
  end.
  - apply lookup_add_error in Hcall. subst. exact Hst.
  - pose proof (search_tree_lookup_add _ _ _ _ _ _ _ _ Hwf Hst Hbuf Hcall)
      as Hst1.
    cbn [snd]. unfold wakelocks_gc.
    pose proof (search_tree_update_ws (__pm_relax (ktime_get e)) wl st1 Hst1)
      as Hst2.
    destruct (idle_cpu e); [exact Hst2|].
    match goal with |- context [if ?c then _ else _] => destruct c end;
      exact Hst2.
Qed.

Theorem search_tree_wakelocks_gc_work (limit now : Z) (st : state) :
  wf st -> search_tree st -> search_tree (__wakelocks_gc limit now st).
Proof.
  intros Hwf Hst.
  destruct (gc_sweep_effect limit now st Hwf) as (Hm & _ & Ht & _).
  cbv zeta in Hm, Ht. unfold search_tree. rewrite Ht.
  eapply StronglySorted_ext;
    [|apply StronglySorted_filter, Hst].
  intros x y Hx Hy. unfold name_before, name_of.
  apply list_elem_of_filter in Hx as [Hx _].
  apply list_elem_of_filter in Hy as [Hy _].
  rewrite !Hm, !decide_False by assumption. tauto.
Qed.

(** Every state the registry can reach is well formed and keeps its tree
    a search tree; in particular its names are unique. *)
Theorem reachable_invariant (limit : Z) (st : state) :
  reachable limit st -> wf st /\ search_tree st.
Proof.
  induction 1 as [|e buf st _ [Hwf Hst] Hbuf|e buf st _ [Hwf Hst] Hbuf
                  |now st _ [Hwf Hst]|st _ IH|st _ IH|b st _ IH].
  - split; decide_by_computation.
  - split; [apply wf_pm_wake_lock | apply search_tree_pm_wake_lock];
      assumption.
  - split; [apply wf_pm_wake_unlock | apply search_tree_pm_wake_unlock];
      assumption.
  - split; [apply wf_wakelocks_gc_work | apply search_tree_wakelocks_gc_work];
      assumption.
  - exact IH.
  - exact IH.
  - exact IH.
Qed.

Corollary reachable_unique_names (limit : Z) (st : state) (p q : ptr) :
  reachable limit st ->
  p ∈ rb_inorder (wakelocks_tree st) ->
  q ∈ rb_inorder (wakelocks_tree st) ->
  name_of (mem st) p = name_of (mem st) q -> p = q.
Proof.
  intros Hr. apply search_tree_unique_names.
  apply (reachable_invariant _ _ Hr).
Qed.

(** X22: re-acquiring a registered name never fails and never creates: in a
    reachable state the lookup finds every wakelock of the tree by its
    name, before the limit is looked at. *)
Corollary registered_name_is_found (limit : Z) (e : env) (add : bool)
  (st : state) (wl : ptr) :
  reachable limit st ->
  wl ∈ rb_inorder (wakelocks_tree st) ->
  wakelock_lookup_add limit e (name_of (mem st) wl)
    (strlen (name_of (mem st) wl)) add st = (inr wl, st).
Proof.
  intros Hr Hin. destruct (reachable_invariant _ _ Hr) as [Hwf Hst].
  apply lookup_add_found, lookup_walk_complete.
  - apply (wf_names_ok _ Hwf), Hin.
  - apply wf_names_ok, Hwf.
  - exact Hst.
  - exact Hin.
  - symmetry. apply kstrndup_strlen.
Qed.

(** ** The live count *)

Lemma length_filter_out (vs l : list ptr) :
  NoDup vs -> NoDup l -> (forall x, x ∈ vs -> x ∈ l) ->
  (length (filter (fun x => x ∉ vs) l) + length vs = length l)%nat.
Proof.
  intros Hvs Hl Hsub.
  rewrite <- (length_app (filter (fun x => x ∉ vs) l) vs).
  apply Permutation_length.
  rewrite <- (filter_app_complement (fun x => x ∉ vs) l) at 2.
  apply Permutation_app; [reflexivity|].
  symmetry. apply NoDup_Permutation; [apply NoDup_filter, Hl | exact Hvs |].
  intros x. rewrite list_elem_of_filter. split.
  - intros [Hx _]. destruct (decide (x ∈ vs)); tauto.
  - intros Hx. split; [tauto | apply Hsub, Hx].
Qed.

Lemma collected_NoDup (now : Z) (st : state) :
  wf st -> NoDup (collected now st) /\
  (forall x, x ∈ collected now st -> x ∈ wakelocks_lru_list st).
Proof.
  intros Hwf.
  destruct (scanned_prefix now (mem st) (reverse (wakelocks_lru_list st)))
    as (rest & Hsplit & _).
  assert (Hnd : NoDup (reverse (wakelocks_lru_list st))).
  { rewrite reverse_Permutation. apply Hwf. }
  split.
  - unfold collected. apply NoDup_filter.
    rewrite Hsplit in Hnd. apply NoDup_app in Hnd. tauto.
  - intros x Hx. unfold collected in Hx.
    apply list_elem_of_filter in Hx as [_ Hx].
    apply scanned_elem_of in Hx. rewrite elem_of_reverse in Hx. exact Hx.
Qed.

Lemma counted_lookup_add (limit : Z) (e : env) (nm : string) (len : nat)
  (add : bool) (st st1 : state) (r : Z + ptr) :
  0 < limit < 2 ^ 32 - 1 ->
  counted limit st ->
  wakelock_lookup_add limit e nm len add st = (r, st1) ->
  counted limit st1.
Proof.
  intros Hlim [Hc Hle] Hcall.
  destruct (lookup_walk (mem st) nm len (wakelocks_tree st)) as [w|node]
    eqn:Hwalk.
  { rewrite (lookup_add_found _ _ _ _ _ _ _ Hwalk) in Hcall.
    injection Hcall as _ <-. split; assumption. }
  destruct r as [err|wl].
  { apply lookup_add_error in Hcall. subst. split; assumption. }
  destruct (lookup_add_created _ _ _ _ _ _ _ _ _ Hwalk Hcall)
    as (_ & _ & _ & Hl & Hn & _).
  assert (Hroom : number_of_wakelocks st <= limit).
  { revert Hcall. unfold wakelock_lookup_add. rewrite Hwalk.
    destruct (negb add); [discriminate|].
    unfold wakelocks_limit_exceeded.
    destruct (0 <? limit) eqn:E; [|apply Z.ltb_ge in E; lia].
    destruct (limit <? number_of_wakelocks st) eqn:E'; [discriminate|].
    intros _. apply Z.ltb_ge, E'. }
  assert (E : (0 <? limit) = true) by (apply Z.ltb_lt; lia).
  rewrite E in Hn. unfold counted. rewrite Hn, Hl. cbn [length].
  assert (0 <= number_of_wakelocks st) by lia.
  unfold u32. rewrite Z.mod_small by lia. split; lia.
Qed.

Lemma counted_lru_most_recent (limit : Z) (wl : ptr) (st : state) :
  NoDup (wakelocks_lru_list st) -> wl ∈ wakelocks_lru_list st ->
  counted limit st -> counted limit (wakelocks_lru_most_recent wl st).
Proof.
  intros Hnd Hin [Hc Hle]. unfold counted, wakelocks_lru_most_recent.
  cbn [number_of_wakelocks wakelocks_lru_list set_lru length].
  split; [|exact Hle].
  pose proof (length_filter_out [wl] (wakelocks_lru_list st)) as Hlen.
  rewrite (list_filter_iff (fun x => x ∉ [wl]) (fun x => x ≠ wl)) in Hlen
    by (intros x; rewrite list_elem_of_singleton; tauto).
  unfold list_del. cbn [length] in Hlen.
  rewrite Hc. apply inj_eq.
  rewrite <- Hlen; [lia | apply NoDup_singleton | exact Hnd |].
  intros x. rewrite list_elem_of_singleton. intros ->. exact Hin.
Qed.

(** X24: the counter is the number of live wakelocks, and the test made before
    a creation lets it reach [CONFIG_PM_WAKELOCKS_LIMIT + 1], no more. *)
Theorem reachable_count (limit : Z) (st : state) :
  0 < limit < 2 ^ 32 - 1 ->
  reachable limit st ->
  number_of_wakelocks st = Z.of_nat (length (wakelocks_lru_list st)) /\
  number_of_wakelocks st <= limit + 1.
Proof.
  intros Hlim Hr. change (counted limit st).
  induction Hr as [|e buf st Hr IH Hbuf|e buf st Hr IH Hbuf
                   |now st Hr IH|st _ IH|st _ IH|b st _ IH];
    try exact IH.
  - split; [reflexivity | simpl; lia].
  - destruct (reachable_invariant _ _ Hr) as [Hwf _].
    unfold pm_wake_lock.
    destruct (negb (capable e)); [exact IH|].
    destruct (name_len buf =? 0)%nat; [exact IH|].
    destruct (screen_is_off st && should_block_wakelock st buf); [exact IH|].
    match goal with
    | |- context [match ?p with inl _ => _ | inr _ => _ end] =>
        destruct p as [err|t]
    end; [exact IH|].
    destruct (wakelock_lookup_add limit e buf (name_len buf) true st)
      as [[err|wl] st1] eqn:Hcall.
    + apply lookup_add_error in Hcall. subst. exact IH.
    + pose proof (counted_lookup_add _ _ _ _ _ _ _ _ Hlim IH Hcall) as Hc1.
      pose proof (wf_lookup_add _ _ _ _ _ _ _ _ Hwf Hbuf Hcall) as Hwf1.
      destruct (lookup_add_ok _ _ _ _ _ _ _ _ Hwf Hcall)
        as (_ & _ & _ & Hlive).
      apply (wf_lru_live _ _ Hwf1) in Hlive.
      cbn [snd]. destruct (negb (t =? 0));
        apply counted_lru_most_recent; try assumption; apply Hwf1.
  - destruct (reachable_invariant _ _ Hr) as [Hwf _].
    unfold pm_wake_unlock.
    destruct (negb (capable e)); [exact IH|].
    destruct (strlen buf =? 0)%nat; [exact IH|].
    match goal with
    | |- context [(?n =? 0)%nat] => destruct (n =? 0)%nat eqn:E
    end; [exact IH|].
    match goal with
    | |- context [wakelock_lookup_add limit e buf ?n false st] =>
        destruct (wakelock_lookup_add limit e buf n false st)
          as [[err|wl] st1] eqn:Hcall
    end.
    + apply lookup_add_error in Hcall. subst. exact IH.
    + pose proof (counted_lookup_add _ _ _ _ _ _ _ _ Hlim IH Hcall) as Hc1.
      pose proof (wf_lookup_add _ _ _ _ _ _ _ _ Hwf Hbuf Hcall) as Hwf1.
      destruct (lookup_add_ok _ _ _ _ _ _ _ _ Hwf Hcall)
        as (_ & _ & _ & Hlive).
      apply (wf_lru_live _ _ Hwf1) in Hlive.
      cbn [snd].
      assert (Hc2 : counted limit
                (wakelocks_lru_most_recent wl
                   (set_mem (update_ws (__pm_relax (ktime_get e)) wl) st1))).
      { apply counted_lru_most_recent; try assumption; apply Hwf1. }
      unfold wakelocks_gc. destruct (idle_cpu e); [exact Hc2|].
      match goal with |- context [if ?c then _ else _] => destruct c end;
        exact Hc2.
  - destruct (reachable_invariant _ _ Hr) as [Hwf _].
    destruct (gc_sweep_effect limit now st Hwf) as (_ & Hl & _ & Hn).
    cbv zeta in Hl, Hn. destruct IH as [Hc Hle].
    destruct (collected_NoDup now st Hwf) as [Hnd Hsub].
    pose proof (length_filter_out (collected now st) (wakelocks_lru_list st)
                  Hnd (proj1 (proj2 (proj2 (proj2 Hwf)))) Hsub) as Hlen.
    assert (E : (0 <? limit) = true) by (apply Z.ltb_lt; lia).
    rewrite E in Hn. unfold counted. rewrite Hn, Hl.
    unfold u32. rewrite Z.mod_small by lia. split; lia.
Qed.

(** A registry that already holds [CONFIG_PM_WAKELOCKS_LIMIT] wakelocks
    still takes a new name. *)
Lemma creation_at_limit (limit : Z) (e : env) (nm : string) (len : nat)
  (st : state) (node : slot) :
  0 < limit < 2 ^ 32 - 1 ->
  number_of_wakelocks st = limit ->
  lookup_walk (mem st) nm len (wakelocks_tree st) = inr node ->
  kzalloc_ok e = true -> kstrndup_ok e = true ->
  wakeup_source_register_ok e = true ->
  exists wl st1,
    wakelock_lookup_add limit e nm len true st = (inr wl, st1) /\
    number_of_wakelocks st1 = limit + 1.
Proof.
  intros Hlim Hn Hwalk Hk Hs Hw. unfold wakelock_lookup_add.
  rewrite Hwalk, (limit_check_passes_at_limit _ _ Hn), Hk, Hs, Hw.
  simpl negb. cbv iota. eexists _, _. split; [reflexivity|].
  unfold increment_wakelocks_number.
  assert (E : (0 <? limit) = true) by (apply Z.ltb_lt; lia).
  rewrite E. cbn. rewrite Hn. unfold u32. apply Z.mod_small. lia.
Qed.

(** With a clock that does not run backwards the idle time is the plain
    difference. *)
Lemma idle_time_ns_plain (now : Z) (w : wakeup_source) :
  last_time w <= now < last_time w + 2 ^ 64 ->
  idle_time_ns now w = now - last_time w.
Proof. intros H. unfold idle_time_ns, u64. apply Z.mod_small. lia. Qed.

(** * Further properties of the code *)

(** ** Calls that fail *)

Lemma lookup_add_error_code (limit : Z) (e : env) (nm : string) (len : nat)
  (add : bool) (st st1 : state) (err : Z) :
  wakelock_lookup_add limit e nm len add st = (inl err, st1) ->
  if add then err = - ENOSPC \/ err = - ENOMEM else err = - EINVAL.
Proof.
  unfold wakelock_lookup_add.
  destruct (lookup_walk (mem st) nm len (wakelocks_tree st)); [discriminate|].
  destruct add; simpl negb; cbv iota; [|intros [= <- _]; reflexivity].
  destruct (wakelocks_limit_exceeded limit st); [intros [= <- _]; tauto|].
  destruct (negb (kzalloc_ok e)); [intros [= <- _]; tauto|].
  destruct (negb (kstrndup_ok e)); [intros [= <- _]; tauto|].
  destruct (negb (wakeup_source_register_ok e)); [intros [= <- _]; tauto|].
  discriminate.
Qed.

(** X1: [pm_wake_lock] either returns 0 or returns one of -EPERM, -EINVAL,
    -ENOSPC, -ENOMEM and hands back the state it was given: a failed
    acquire leaves nothing half built. *)
Theorem pm_wake_lock_fails_cleanly (limit : Z) (e : env) (buf : string)
  (st : state) :
  fst (pm_wake_lock limit e buf st) = 0 \/
  (snd (pm_wake_lock limit e buf st) = st /\
   (fst (pm_wake_lock limit e buf st) = - EPERM \/
    fst (pm_wake_lock limit e buf st) = - EINVAL \/
    fst (pm_wake_lock limit e buf st) = - ENOSPC \/
    fst (pm_wake_lock limit e buf st) = - ENOMEM)).
Proof.
  unfold pm_wake_lock.
  destruct (negb (capable e)); [right; simpl; tauto|].
  destruct (name_len buf =? 0)%nat; [right; simpl; tauto|].
  destruct (screen_is_off st && should_block_wakelock st buf);
    [left; reflexivity|].
  match goal with
  | |- context [match ?p with inl _ => _ | inr _ => _ end] =>
      destruct p as [err|t]
  end; [right; simpl; tauto|].
  destruct (wakelock_lookup_add limit e buf (name_len buf) true st)
    as [[err|wl] st1] eqn:Hcall; [|left; reflexivity].
  right. cbn [fst snd].
  pose proof (lookup_add_error_code _ _ _ _ _ _ _ _ Hcall) as Herr.
  apply lookup_add_error in Hcall. simpl in Herr. tauto.
Qed.

(** X2: [pm_wake_unlock] either returns 0 or returns -EPERM or -EINVAL and
    hands back the state it was given; a release never fails for lack of
    room or memory, since it never creates. *)
Theorem pm_wake_unlock_fails_cleanly (limit : Z) (e : env) (buf : string)
  (st : state) :
  fst (pm_wake_unlock limit e buf st) = 0 \/
  (snd (pm_wake_unlock limit e buf st) = st /\
   (fst (pm_wake_unlock limit e buf st) = - EPERM \/
    fst (pm_wake_unlock limit e buf st) = - EINVAL)).
Proof.
  unfold pm_wake_unlock.
  destruct (negb (capable e)); [right; simpl; tauto|].
  destruct (strlen buf =? 0)%nat; [right; simpl; tauto|].
  match goal with
  | |- context [(?n =? 0)%nat] => destruct (n =? 0)%nat
  end; [right; simpl; tauto|].
  match goal with
  | |- context [wakelock_lookup_add limit e buf ?n false st] =>
      destruct (wakelock_lookup_add limit e buf n false st)
        as [[err|wl] st1] eqn:Hcall
  end; [|left; reflexivity].
  right. cbn [fst snd].
  pose proof (lookup_add_error_code _ _ _ _ _ _ _ _ Hcall) as Herr.
  apply lookup_add_error in Hcall. simpl in Herr. tauto.
Qed.

(** ** What a successful acquire and a successful release leave *)

Lemma lookup_add_others (limit : Z) (e : env) (nm : string) (len : nat)
  (add : bool) (st st1 : state) (wl : ptr) :
  wakelock_lookup_add limit e nm len add st = (inr wl, st1) ->
  (forall p, p <> wl -> mem st1 !! p = mem st !! p) /\
  wl :: list_del wl (wakelocks_lru_list st1)
    = wl :: list_del wl (wakelocks_lru_list st).
Proof.
  intros Hcall.
  destruct (lookup_walk (mem st) nm len (wakelocks_tree st)) as [w|node]
    eqn:Hwalk.
  { rewrite (lookup_add_found _ _ _ _ _ _ _ Hwalk) in Hcall.
    injection Hcall as <- <-. split; reflexivity. }
  destruct (lookup_add_created _ _ _ _ _ _ _ _ _ Hwalk Hcall)
    as (_ & Hm & _ & Hl & _).
  split.
  - intros p Hp. rewrite Hm. apply lookup_insert_ne. congruence.
  - rewrite Hl. unfold list_del. rewrite filter_cons_False by tauto.
    reflexivity.
Qed.

Lemma lookup_update_ws (f : wakeup_source -> wakeup_source) (wl : ptr)
  (m : gmap ptr wakelock) (w : wakelock) :
  m !! wl = Some w ->
  update_ws f wl m !! wl = Some {| name := name w; ws := f (ws w) |} /\
  (forall p, p <> wl -> update_ws f wl m !! p = m !! p).
Proof.
  intros Hw. unfold update_ws. rewrite Hw. split.
  - apply lookup_insert_eq.
  - intros p Hp. apply lookup_insert_ne. congruence.
Qed.

(** A call of [pm_wake_lock] that returns 0 without a veto went through
    the lookup and touched the wakelock it returned. *)
Lemma pm_wake_lock_success (limit : Z) (e : env) (buf : string)
  (st st' : state) :
  vetoed st buf = false ->
  pm_wake_lock limit e buf st = (0, st') ->
  exists wl st1 f,
    wakelock_lookup_add limit e buf (name_len buf) true st = (inr wl, st1) /\
    st' = wakelocks_lru_most_recent wl (set_mem (update_ws f wl) st1) /\
    (forall w, last_time (f w) = ktime_get e) /\
    (peek (trailer buf) = 0 \/ peek (trailer buf) = 10 ->
     f = __pm_stay_awake (ktime_get e)).
Proof.
  intros Hveto. unfold pm_wake_lock. unfold vetoed in Hveto.
  destruct (negb (capable e)); [intros [= H]; discriminate|].
  destruct (name_len buf =? 0)%nat; [intros [= H]; discriminate|].
  rewrite Hveto. fold (trailer buf).
  destruct (negb (peek (trailer buf) =? 0) && negb (peek (trailer buf) =? 10))
    eqn:Hfield.
  - destruct (kstrtou64 (skip_spaces (trailer buf))) as [err|t];
      [intros [= H]; discriminate|].
    destruct (wakelock_lookup_add limit e buf (name_len buf) true st)
      as [[err|wl] st1] eqn:Hcall.
    { apply lookup_add_error_code in Hcall. simpl in Hcall.
      intros [= H _]. unfold ENOSPC, ENOMEM in Hcall. lia. }
    apply andb_true_iff in Hfield as [H0 H10].
    apply negb_true_iff, Z.eqb_neq in H0, H10.
    destruct (negb (t =? 0)); intros [= <-].
    + exists wl, st1,
        (fun w => __pm_wakeup_event (ktime_get e) w (timeout_ms_of t)).
      repeat split; [|tauto].
      intros w. unfold __pm_wakeup_event.
      destruct (timeout_ms_of t =? 0); reflexivity.
    + exists wl, st1, (__pm_stay_awake (ktime_get e)).
      repeat split.
  - destruct (wakelock_lookup_add limit e buf (name_len buf) true st)
      as [[err|wl] st1] eqn:Hcall.
    { apply lookup_add_error_code in Hcall. simpl in Hcall.
      intros [= H _]. unfold ENOSPC, ENOMEM in Hcall. lia. }
    simpl. intros [= <-].
    exists wl, st1, (__pm_stay_awake (ktime_get e)). repeat split.
Qed.

Lemma lock_effect (limit : Z) (e : env) (buf : string) (st st' : state) :
  wf st -> cstring buf = true ->
  vetoed st buf = false ->
  pm_wake_lock limit e buf st = (0, st') ->
  exists wl w,
    mem st' !! wl = Some w /\
    name w = requested_name buf /\
    last_time (ws w) = ktime_get e /\
    (peek (trailer buf) = 0 \/ peek (trailer buf) = 10 ->
     active (ws w) = true /\ timer_expires (ws w) = None) /\
    wl ∈ rb_inorder (wakelocks_tree st') /\
    wakelocks_lru_list st' = wl :: list_del wl (wakelocks_lru_list st) /\
    (forall p, p <> wl -> mem st' !! p = mem st !! p).
Proof.
  intros Hwf Hbuf Hveto Hcall.
  destruct (pm_wake_lock_success _ _ _ _ _ Hveto Hcall)
    as (wl & st1 & f & Hadd & -> & Htime & Hplain).
  destruct (lookup_add_ok _ _ _ _ _ _ _ _ Hwf Hadd)
    as (Hwalk & _ & _ & [w1 Hw1]).
  pose proof (lookup_add_name _ _ _ _ _ _ _ _ Hwf Hbuf Hadd) as Hname.
  destruct (lookup_add_others _ _ _ _ _ _ _ _ Hadd) as [Hothers Hlru].
  destruct (lookup_update_ws f wl (mem st1) w1 Hw1) as [Hnew Hrest].
  exists wl, {| name := name w1; ws := f (ws w1) |}.
  cbn [mem wakelocks_tree wakelocks_lru_list wakelocks_lru_most_recent
       set_lru set_mem].
  repeat split.
  - exact Hnew.
  - simpl. unfold name_of in Hname. rewrite Hw1 in Hname. exact Hname.
  - apply Htime.
  - rewrite (Hplain H). reflexivity.
  - rewrite (Hplain H). reflexivity.
  - apply (lookup_walk_found _ _ _ _ _ Hwalk).
  - exact Hlru.
  - intros p Hp. rewrite (Hrest p Hp). apply Hothers, Hp.
Qed.

(** X3: after an acquire that returned 0 and was not dropped by the
    filter, the registry holds a wakelock with the requested name; it was
    touched at the time of the call, it sits at the head of the LRU list
    with the other entries in their old order behind it, and no other
    wakelock was changed.  Without a timeout field it is active with no
    deadline. *)
Theorem acquire_postcondition (limit : Z) (e : env) (buf : string)
  (st st' : state) :
  wf st -> cstring buf = true ->
  vetoed st buf = false ->
  pm_wake_lock limit e buf st = (0, st') ->
  exists wl w,
    mem st' !! wl = Some w /\
    name w = requested_name buf /\
    last_time (ws w) = ktime_get e /\
    (peek (trailer buf) = 0 \/ peek (trailer buf) = 10 ->
     active (ws w) = true /\ timer_expires (ws w) = None) /\
    wl ∈ rb_inorder (wakelocks_tree st') /\
    wakelocks_lru_list st' = wl :: list_del wl (wakelocks_lru_list st) /\
    (forall p, p <> wl -> mem st' !! p = mem st !! p).
Proof. exact (lock_effect limit e buf st st'). Qed.

Lemma acquire_postcondition_witness :
  exists wl w,
    mem (acquire 8 11 "abc" demo_state) !! wl = Some w /\
    name w = requested_name "abc" /\
    last_time (ws w) = ktime_get (env_priv 11) /\
    (peek (trailer "abc") = 0 \/ peek (trailer "abc") = 10 ->
     active (ws w) = true /\ timer_expires (ws w) = None) /\
    wl ∈ rb_inorder (wakelocks_tree (acquire 8 11 "abc" demo_state)) /\
    wakelocks_lru_list (acquire 8 11 "abc" demo_state)
      = wl :: list_del wl (wakelocks_lru_list demo_state) /\
    (forall p, p <> wl ->
       mem (acquire 8 11 "abc" demo_state) !! p = mem demo_state !! p).
Proof.
  apply (acquire_postcondition 8 (env_priv 11) "abc" demo_state).
  - decide_by_computation.
  - reflexivity.
  - reflexivity.
  - vm_compute. reflexivity.
Defined.

Lemma pm_wake_unlock_unfold (limit : Z) (e : env) (buf : string)
  (st : state) :
  capable e = true -> unlock_len buf <> O ->
  pm_wake_unlock limit e buf st
  = match wakelock_lookup_add limit e buf (unlock_len buf) false st with
    | (inl err, st1) => (err, st1)
    | (inr wl, st1) =>
        (0, wakelocks_gc e
              (wakelocks_lru_most_recent wl
                 (set_mem (update_ws (__pm_relax (ktime_get e)) wl) st1)))
    end.
Proof.
  intros Hcap Hlen. unfold pm_wake_unlock. rewrite Hcap. simpl negb. cbv iota.
  fold (unlock_len buf).
  destruct (strlen buf =? 0)%nat eqn:E.
  { apply Nat.eqb_eq in E. unfold unlock_len in Hlen. rewrite E in Hlen.
    destruct (char_at buf (0 - 1) =? 10); simpl in Hlen; congruence. }
  destruct (unlock_len buf =? 0)%nat eqn:E'.
  { apply Nat.eqb_eq in E'. congruence. }
  reflexivity.
Qed.

Lemma wakelocks_gc_proj (e : env) (st : state) :
  mem (wakelocks_gc e st) = mem st /\
  wakelocks_tree (wakelocks_gc e st) = wakelocks_tree st /\
  wakelocks_lru_list (wakelocks_gc e st) = wakelocks_lru_list st /\
  number_of_wakelocks (wakelocks_gc e st) = number_of_wakelocks st /\
  screen_is_off (wakelocks_gc e st) = screen_is_off st /\
  sensor_event_active (wakelocks_gc e st) = sensor_event_active st.
Proof.
  unfold wakelocks_gc. destruct (idle_cpu e); [repeat split|].
  match goal with |- context [if ?c then _ else _] => destruct c end;
    repeat split.
Qed.

Lemma unlock_effect (limit : Z) (e : env) (buf : string) (st : state)
  (wl : ptr) :
  wf st -> search_tree st -> cstring buf = true ->
  capable e = true -> unlock_len buf <> O ->
  wl ∈ rb_inorder (wakelocks_tree st) ->
  name_of (mem st) wl = kstrndup buf (unlock_len buf) ->
  exists w,
    mem st !! wl = Some w /\
    fst (pm_wake_unlock limit e buf st) = 0 /\
    mem (snd (pm_wake_unlock limit e buf st)) !! wl
      = Some {| name := name w;
                ws := {| active := false; last_time := ktime_get e;
                         timer_expires := None |} |} /\
    (forall p, p <> wl ->
       mem (snd (pm_wake_unlock limit e buf st)) !! p = mem st !! p) /\
    wakelocks_tree (snd (pm_wake_unlock limit e buf st)) = wakelocks_tree st /\
    wakelocks_lru_list (snd (pm_wake_unlock limit e buf st))
      = wl :: list_del wl (wakelocks_lru_list st) /\
    number_of_wakelocks (snd (pm_wake_unlock limit e buf st))
      = number_of_wakelocks st.
Proof.
  intros Hwf Hst Hbuf Hcap Hlen Hin Hname.
  destruct (proj1 (wf_tree_live _ _ Hwf) Hin) as [w Hw].
  assert (Hwalk : lookup_walk (mem st) buf (unlock_len buf) (wakelocks_tree st)
                  = inl wl).
  { apply lookup_walk_complete; try assumption. apply wf_names_ok, Hwf. }
  rewrite (pm_wake_unlock_unfold _ _ _ _ Hcap Hlen),
    (lookup_add_found _ _ _ _ _ _ _ Hwalk).
  cbn [fst snd].
  destruct (wakelocks_gc_proj e
              (wakelocks_lru_most_recent wl
                 (set_mem (update_ws (__pm_relax (ktime_get e)) wl) st)))
    as (Hm & Ht & Hl & Hn & _).
  rewrite Hm, Ht, Hl, Hn.
  destruct (lookup_update_ws (__pm_relax (ktime_get e)) wl (mem st) w Hw)
    as [Hnew Hrest].
  exists w. repeat split; try assumption.
Qed.

(** X4: releasing a registered name, with or without a final newline,
    returns 0; the wakelock stays registered under its name, becomes
    inactive with no deadline, is touched at the time of the call and moves
    to the head of the LRU list; the tree, the live count and every other
    wakelock are as before. *)
Theorem release_postcondition (limit : Z) (e : env) (buf : string)
  (st : state) (wl : ptr) :
  wf st -> search_tree st -> cstring buf = true ->
  capable e = true -> unlock_len buf <> O ->
  wl ∈ rb_inorder (wakelocks_tree st) ->
  name_of (mem st) wl = kstrndup buf (unlock_len buf) ->
  exists w,
    mem st !! wl = Some w /\
    fst (pm_wake_unlock limit e buf st) = 0 /\
    mem (snd (pm_wake_unlock limit e buf st)) !! wl
      = Some {| name := name w;
                ws := {| active := false; last_time := ktime_get e;
                         timer_expires := None |} |} /\
    (forall p, p <> wl ->
       mem (snd (pm_wake_unlock limit e buf st)) !! p = mem st !! p) /\
    wakelocks_tree (snd (pm_wake_unlock limit e buf st)) = wakelocks_tree st /\
    wakelocks_lru_list (snd (pm_wake_unlock limit e buf st))
      = wl :: list_del wl (wakelocks_lru_list st) /\
    number_of_wakelocks (snd (pm_wake_unlock limit e buf st))
      = number_of_wakelocks st.
Proof. exact (unlock_effect limit e buf st wl). Qed.

Lemma release_postcondition_witness :
  exists w,
    mem three_locks !! 2%nat = Some w /\
    fst (pm_wake_unlock 8 (env_priv 10) ("ab" ++ nl) three_locks) = 0 /\
    mem (snd (pm_wake_unlock 8 (env_priv 10) ("ab" ++ nl) three_locks))
      !! 2%nat
      = Some {| name := name w;
                ws := {| active := false;
                         last_time := ktime_get (env_priv 10);
                         timer_expires := None |} |} /\
    (forall p, p <> 2%nat ->
       mem (snd (pm_wake_unlock 8 (env_priv 10) ("ab" ++ nl) three_locks))
         !! p = mem three_locks !! p) /\
    wakelocks_tree (snd (pm_wake_unlock 8 (env_priv 10) ("ab" ++ nl)
                           three_locks))
      = wakelocks_tree three_locks /\
    wakelocks_lru_list (snd (pm_wake_unlock 8 (env_priv 10) ("ab" ++ nl)
                               three_locks))
      = 2%nat :: list_del 2%nat (wakelocks_lru_list three_locks) /\
    number_of_wakelocks (snd (pm_wake_unlock 8 (env_priv 10) ("ab" ++ nl)
                                three_locks))
      = number_of_wakelocks three_locks.
Proof.
  apply (release_postcondition 8 (env_priv 10) ("ab" ++ nl) three_locks
           2%nat).
  - decide_by_computation.
  - decide_by_computation.
  - reflexivity.
  - reflexivity.
  - vm_compute. discriminate.
  - vm_compute. set_solver.
  - reflexivity.
Defined.

(** X5: releasing a name that no registered wakelock carries returns
    -EINVAL and changes nothing; a release never creates. *)
Theorem release_unknown_is_einval (limit : Z) (e : env) (buf : string)
  (st : state) :
  wf st -> cstring buf = true -> capable e = true ->
  (forall wl, wl ∈ rb_inorder (wakelocks_tree st) ->
     name_of (mem st) wl <> kstrndup buf (unlock_len buf)) ->
  pm_wake_unlock limit e buf st = (- EINVAL, st).
Proof.
  intros Hwf Hbuf Hcap Hnone.
  destruct (Nat.eq_dec (unlock_len buf) O) as [Hz|Hnz].
  { unfold pm_wake_unlock. rewrite Hcap. simpl negb. cbv iota.
    fold (unlock_len buf). rewrite Hz.
    destruct (strlen buf =? 0)%nat; reflexivity. }
  rewrite (pm_wake_unlock_unfold _ _ _ _ Hcap Hnz).
  unfold wakelock_lookup_add.
  destruct (lookup_walk (mem st) buf (unlock_len buf) (wakelocks_tree st))
    as [wl|node] eqn:Hwalk; [|reflexivity].
  exfalso. destruct (lookup_walk_found _ _ _ _ _ Hwalk) as [Hin Hd].
  apply (Hnone wl Hin).
  apply name_diff_match; [exact Hbuf | apply (wf_names_ok _ Hwf), Hin | exact Hd].
Qed.

Lemma release_unknown_is_einval_witness :
  pm_wake_unlock 8 (env_priv 10) "abcd" three_locks = (- EINVAL, three_locks).
Proof.
  apply release_unknown_is_einval.
  - decide_by_computation.
  - reflexivity.
  - reflexivity.
  - intros wl Hwl. vm_compute in Hwl.
    repeat (apply elem_of_cons in Hwl as [-> | Hwl]);
      [vm_compute; discriminate ..|].
    inversion Hwl.
Defined.

(** ** Acquire and release together *)

Lemma no_space_requested_name (buf : string) :
  no_space (requested_name buf) = true.
Proof.
  unfold requested_name. induction buf as [|c r IH]; [reflexivity|].
  cbn [name_len]. destruct (isspace (uchar c)) eqn:E; [reflexivity|].
  cbn [kstrndup no_space]. rewrite E, IH. reflexivity.
Qed.

Lemma strlen_requested_name (buf : string) :
  strlen (requested_name buf) = name_len buf.
Proof.
  unfold requested_name, strlen. induction buf as [|c r IH]; [reflexivity|].
  cbn [name_len]. destruct (isspace (uchar c)); [reflexivity|].
  cbn [kstrndup String.length]. rewrite IH. reflexivity.
Qed.

Lemma no_space_last (s : string) :
  no_space s = true -> s <> EmptyString ->
  isspace (char_at s (strlen s - 1)) = false.
Proof.
  unfold strlen. induction s as [|c r IH]; [congruence|].
  intros Hs _. cbn [no_space] in Hs. apply andb_true_iff in Hs as [Hc Hr].
  destruct r as [|d r'].
  - simpl. apply negb_true_iff, Hc.
  - cbn [String.length Nat.sub char_at next] in *.
    rewrite Nat.sub_0_r in *. apply IH; [exact Hr | discriminate].
Qed.

Lemma unlock_len_no_space (s : string) :
  no_space s = true -> unlock_len s = strlen s.
Proof.
  intros Hs. unfold unlock_len. destruct s as [|c r]; [reflexivity|].
  pose proof (no_space_last _ Hs ltac:(discriminate)) as Hlast.
  destruct (char_at (String c r) (strlen (String c r) - 1) =? 10) eqn:E;
    [|reflexivity].
  apply Z.eqb_eq in E. rewrite E in Hlast. discriminate.
Qed.

Lemma pm_wake_lock_zero_name (limit : Z) (e : env) (buf : string)
  (st st' : state) :
  vetoed st buf = false ->
  pm_wake_lock limit e buf st = (0, st') -> name_len buf <> O.
Proof.
  intros Hveto. unfold pm_wake_lock.
  destruct (negb (capable e)); [intros [= H]; discriminate|].
  destruct (name_len buf) eqn:E; [|discriminate].
  cbn [Nat.eqb]. unfold EINVAL. intros [= H].
Qed.

Lemma round_trip (limit : Z) (e e' : env) (buf : string) (st st1 : state) :
  wf st -> search_tree st -> cstring buf = true ->
  vetoed st buf = false -> capable e' = true ->
  pm_wake_lock limit e buf st = (0, st1) ->
  exists wl w,
    fst (pm_wake_unlock limit e' (requested_name buf) st1) = 0 /\
    mem (snd (pm_wake_unlock limit e' (requested_name buf) st1)) !! wl
      = Some w /\
    name w = requested_name buf /\
    active (ws w) = false /\
    wakelocks_tree (snd (pm_wake_unlock limit e' (requested_name buf) st1))
      = wakelocks_tree st1 /\
    number_of_wakelocks
      (snd (pm_wake_unlock limit e' (requested_name buf) st1))
      = number_of_wakelocks st1.
Proof.
  intros Hwf Hst Hbuf Hveto Hcap Hcall.
  destruct (lock_effect _ _ _ _ _ Hwf Hbuf Hveto Hcall)
    as (wl & w & Hw & Hname & _ & _ & Hin & _).
  pose proof (wf_pm_wake_lock limit e buf st Hwf Hbuf) as Hwf1.
  pose proof (search_tree_pm_wake_lock limit e buf st Hwf Hst Hbuf) as Hst1.
  rewrite Hcall in Hwf1, Hst1. cbn [snd] in Hwf1, Hst1.
  pose proof (unlock_len_no_space _ (no_space_requested_name buf)) as Hlen.
  destruct (unlock_effect limit e' (requested_name buf) st1 wl Hwf1 Hst1)
    as (w' & Hw' & Hret & Hnew & _ & Htree & _ & Hnum).
  - apply cstring_kstrndup, Hbuf.
  - exact Hcap.
  - rewrite Hlen, strlen_requested_name.
    apply (pm_wake_lock_zero_name _ _ _ _ _ Hveto Hcall).
  - exact Hin.
  - rewrite Hlen, kstrndup_strlen. unfold name_of. rewrite Hw. exact Hname.
  - rewrite Hw in Hw'. injection Hw' as <-.
    eexists wl, _. repeat split; [exact Hret | exact Hnew | exact Hname | |
                                  exact Htree | exact Hnum].
    reflexivity.
Qed.

(** X6: a name acquired can be released: after an acquire that returned 0
    and was not dropped by the filter, releasing the requested name returns
    0 and leaves the wakelock registered under that name and inactive; the
    tree and the live count stay as the acquire left them. *)
Theorem acquire_then_release (limit : Z) (e e' : env) (buf : string)
  (st st1 : state) :
  wf st -> search_tree st -> cstring buf = true ->
  vetoed st buf = false -> capable e' = true ->
  pm_wake_lock limit e buf st = (0, st1) ->
  exists wl w,
    fst (pm_wake_unlock limit e' (requested_name buf) st1) = 0 /\
    mem (snd (pm_wake_unlock limit e' (requested_name buf) st1)) !! wl
      = Some w /\
    name w = requested_name buf /\
    active (ws w) = false /\
    wakelocks_tree (snd (pm_wake_unlock limit e' (requested_name buf) st1))
      = wakelocks_tree st1 /\
    number_of_wakelocks
      (snd (pm_wake_unlock limit e' (requested_name buf) st1))
      = number_of_wakelocks st1.
Proof. exact (round_trip limit e e' buf st st1). Qed.

Lemma acquire_then_release_witness :
  exists wl w,
    fst (pm_wake_unlock 8 (env_priv 12) (requested_name "radio 5000000")
           (acquire 8 11 "radio 5000000" demo_state)) = 0 /\
    mem (snd (pm_wake_unlock 8 (env_priv 12) (requested_name "radio 5000000")
                (acquire 8 11 "radio 5000000" demo_state))) !! wl
      = Some w /\
    name w = requested_name "radio 5000000" /\
    active (ws w) = false /\
    wakelocks_tree
      (snd (pm_wake_unlock 8 (env_priv 12) (requested_name "radio 5000000")
              (acquire 8 11 "radio 5000000" demo_state)))
      = wakelocks_tree (acquire 8 11 "radio 5000000" demo_state) /\
    number_of_wakelocks
      (snd (pm_wake_unlock 8 (env_priv 12) (requested_name "radio 5000000")
              (acquire 8 11 "radio 5000000" demo_state)))
      = number_of_wakelocks (acquire 8 11 "radio 5000000" demo_state).
Proof.
  apply (acquire_then_release 8 (env_priv 11) (env_priv 12) "radio 5000000"
           demo_state).
  - decide_by_computation.
  - decide_by_computation.
  - reflexivity.
  - reflexivity.
  - reflexivity.
  - vm_compute. reflexivity.
Defined.

(** X7: acquiring a registered name cannot fail for lack of room or
    memory: whatever the limit, the count and the allocator say, a
    privileged, well-formed request for a name the registry holds, not
    dropped by the filter, returns 0 and creates nothing. *)
Theorem reacquire_succeeds (limit : Z) (e : env) (buf : string) (st : state)
  (wl : ptr) (timeout_ns : Z) :
  wf st -> search_tree st -> cstring buf = true ->
  capable e = true -> name_len buf <> O ->
  vetoed st buf = false ->
  parsed_timeout buf = inr timeout_ns ->
  wl ∈ rb_inorder (wakelocks_tree st) ->
  name_of (mem st) wl = requested_name buf ->
  fst (pm_wake_lock limit e buf st) = 0 /\
  wakelocks_tree (snd (pm_wake_lock limit e buf st)) = wakelocks_tree st /\
  number_of_wakelocks (snd (pm_wake_lock limit e buf st))
    = number_of_wakelocks st /\
  dom (mem (snd (pm_wake_lock limit e buf st))) = dom (mem st).
Proof.
  intros Hwf Hst Hbuf Hcap Hlen Hveto Hparse Hin Hname.
  assert (Hwalk : lookup_walk (mem st) buf (name_len buf) (wakelocks_tree st)
                  = inl wl).
  { apply lookup_walk_complete; try assumption. apply wf_names_ok, Hwf. }
  destruct (proj1 (wf_tree_live _ _ Hwf) Hin) as [w Hw].
  unfold pm_wake_lock. rewrite Hcap. simpl negb. cbv iota.
  destruct (name_len buf =? 0)%nat eqn:E;
    [apply Nat.eqb_eq in E; congruence|].
  unfold vetoed in Hveto. rewrite Hveto.
  fold (trailer buf). fold (parsed_timeout buf). rewrite Hparse.
  rewrite (lookup_add_found _ _ _ _ _ _ _ Hwalk).
  assert (Hdom : forall f, dom (update_ws f wl (mem st)) = dom (mem st)).
  { intros f. unfold update_ws. rewrite Hw, dom_insert_L.
    apply elem_of_dom_2 in Hw. apply set_eq. intros x.
    rewrite elem_of_union, elem_of_singleton.
    split; [intros [->|Hx]; assumption | right; assumption]. }
  destruct (negb (timeout_ns =? 0)); cbn; rewrite Hdom; repeat split.
Qed.

Lemma reacquire_succeeds_witness :
  fst (pm_wake_lock 1 (env_no_memory 11) "ab 7" three_locks) = 0 /\
  wakelocks_tree (snd (pm_wake_lock 1 (env_no_memory 11) "ab 7" three_locks))
    = wakelocks_tree three_locks /\
  number_of_wakelocks
    (snd (pm_wake_lock 1 (env_no_memory 11) "ab 7" three_locks))
    = number_of_wakelocks three_locks /\
  dom (mem (snd (pm_wake_lock 1 (env_no_memory 11) "ab 7" three_locks)))
    = dom (mem three_locks).
Proof.
  apply (reacquire_succeeds 1 (env_no_memory 11) "ab 7" three_locks 2%nat 7).
  - decide_by_computation.
  - decide_by_computation.
  - reflexivity.
  - reflexivity.
  - vm_compute. discriminate.
  - reflexivity.
  - reflexivity.
  - vm_compute. set_solver.
  - reflexivity.
Defined.

(** ** The final newline of a request *)

Lemma append_assoc (a b c : string) :
  ((a ++ b) ++ c = a ++ (b ++ c))%string.
Proof. induction a as [|x a IH]; simpl; [reflexivity | rewrite IH; reflexivity]. Qed.

Lemma strlen_append_nl (n : string) :
  strlen (n ++ nl) = S (strlen n) /\ char_at (n ++ nl) (strlen n) = 10.
Proof.
  unfold strlen. induction n as [|c r [IH1 IH2]]; [split; reflexivity|].
  simpl. rewrite IH1. split; [reflexivity | exact IH2].
Qed.

Lemma strncmp_append (a x s : string) :
  strncmp (a ++ x) s (strlen a) = strncmp a s (strlen a).
Proof.
  unfold strlen. revert s. induction a as [|c a IH]; intros s; [reflexivity|].
  cbn [String.append String.length strncmp peek next].
  rewrite IH. reflexivity.
Qed.

Lemma kstrndup_append (a x : string) : kstrndup (a ++ x) (strlen a) = a.
Proof.
  unfold strlen. induction a as [|c a IH]; [destruct x; reflexivity|].
  simpl. rewrite IH. reflexivity.
Qed.

Lemma lookup_walk_append (m : gmap ptr wakelock) (a x : string)
  (t : rb_node) :
  lookup_walk m (a ++ x) (strlen a) t = lookup_walk m a (strlen a) t.
Proof.
  induction t as [|l IHl e r IHr]; [reflexivity|].
  cbn [lookup_walk]. unfold name_diff.
  rewrite strncmp_append, IHl, IHr. reflexivity.
Qed.

(** Only the first [len] characters of the request reach the registry. *)
Lemma wakelock_lookup_add_append (limit : Z) (e : env) (a x : string)
  (add : bool) (st : state) :
  wakelock_lookup_add limit e (a ++ x) (strlen a) add st
  = wakelock_lookup_add limit e a (strlen a) add st.
Proof.
  unfold wakelock_lookup_add.
  rewrite lookup_walk_append, kstrndup_append, kstrndup_strlen. reflexivity.
Qed.

(** X8: a final newline does not change a release: [pm_wake_unlock] gives
    the same result and the same state for a name and for the name
    followed by one newline. *)
Theorem release_ignores_final_newline (limit : Z) (e : env) (n : string)
  (st : state) :
  n <> EmptyString ->
  char_at n (strlen n - 1) <> 10 ->
  pm_wake_unlock limit e (n ++ nl) st = pm_wake_unlock limit e n st.
Proof.
  intros Hne Hlast. unfold pm_wake_unlock.
  destruct (negb (capable e)); [reflexivity|].
  destruct (strlen_append_nl n) as [Hlen Hnl].
  rewrite Hlen. cbn [Nat.eqb Nat.sub]. rewrite Nat.sub_0_r, Hnl.
  cbn [Z.eqb Pos.eqb].
  apply Z.eqb_neq in Hlast. rewrite Hlast.
  destruct (strlen n =? 0)%nat eqn:E.
  { apply Nat.eqb_eq in E. destruct n; [congruence | discriminate]. }
  rewrite wakelock_lookup_add_append. reflexivity.
Qed.

Lemma release_ignores_final_newline_witness :
  pm_wake_unlock 8 (env_priv 10) ("abc" ++ nl) three_locks
  = pm_wake_unlock 8 (env_priv 10) "abc" three_locks.
Proof.
  apply release_ignores_final_newline; vm_compute; discriminate.
Defined.

Lemma prefix_before_nl (p b n : string) :
  no_newline p = true -> (p ++ b = n ++ nl)%string ->
  exists b', n = (p ++ b')%string.
Proof.
  revert n. induction p as [|c p IH]; intros n Hp H.
  - exists n. reflexivity.
  - simpl in Hp. apply andb_true_iff in Hp as [Hc Hp].
    destruct n as [|d n]; simpl in H.
    + injection H as -> _. discriminate.
    + injection H as -> H. destruct (IH n Hp H) as [b' ->].
      exists b'. reflexivity.
Qed.

Lemma contains_append_nl (n p : string) :
  p <> EmptyString -> no_newline p = true ->
  contains (n ++ nl) p <-> contains n p.
Proof.
  intros Hne Hp. split.
  - intros (a & b & H). revert a H.
    induction n as [|c n IH]; intros a H.
    + destruct a as [|x a]; simpl in H.
      * destruct p as [|y p]; [congruence|].
        simpl in H, Hp. injection H as <- _. discriminate.
      * injection H as _ H. destruct a; simpl in H; [|discriminate].
        destruct p; [congruence | discriminate].
    + destruct a as [|x a]; simpl in H.
      * destruct (prefix_before_nl p b (String c n) Hp (eq_sym H)) as [b' Hb].
        exists EmptyString, b'. exact Hb.
      * injection H as <- H. destruct (IH a H) as (a' & b' & ->).
        exists (String c a'), b'. reflexivity.
  - intros (a & b & ->). exists a, (b ++ nl)%string.
    rewrite !append_assoc. reflexivity.
Qed.

Lemma strstr_append_nl (n p : string) :
  p <> EmptyString -> no_newline p = true ->
  non_null (strstr (n ++ nl) p) = non_null (strstr n p).
Proof.
  intros Hne Hp.
  pose proof (strstr_spec (n ++ nl) p) as H1.
  pose proof (strstr_spec n p) as H2.
  pose proof (contains_append_nl n p Hne Hp) as H3.
  destruct (non_null (strstr (n ++ nl) p)), (non_null (strstr n p));
    try reflexivity; exfalso.
  - assert (true = true) as H by reflexivity.
    apply H1, H3, H2 in H. discriminate.
  - assert (true = true) as H by reflexivity.
    apply H2, H3, H1 in H. discriminate.
Qed.

Lemma blocked_loop_append_nl (n : string) (tbl : list string) :
  Forall (fun p => p <> EmptyString /\ no_newline p = true) tbl ->
  blocked_loop (n ++ nl) tbl = blocked_loop n tbl.
Proof.
  induction 1 as [|p tbl [Hne Hp] _ IH]; [reflexivity|].
  cbn [blocked_loop]. rewrite (strstr_append_nl n p Hne Hp), IH. reflexivity.
Qed.

Lemma should_block_append_nl (st : state) (n : string) :
  should_block_wakelock st (n ++ nl) = should_block_wakelock st n.
Proof.
  unfold should_block_wakelock.
  rewrite !strstr_append_nl by (try discriminate; reflexivity).
  rewrite blocked_loop_append_nl; [reflexivity|].
  unfold blocked_wakelocks.
  repeat (constructor; [split; [discriminate | reflexivity]|]).
  constructor.
Qed.

Lemma name_len_no_space (n x : string) :
  no_space n = true -> isspace (peek x) = true \/ x = EmptyString ->
  name_len (n ++ x) = strlen n.
Proof.
  unfold strlen. intros Hn Hx. induction n as [|c n IH].
  - simpl. destruct x as [|d x]; [reflexivity|].
    destruct Hx as [Hx|Hx]; [|discriminate].
    simpl in *. rewrite Hx. reflexivity.
  - simpl in Hn. apply andb_true_iff in Hn as [Hc Hn].
    apply negb_true_iff in Hc. cbn [String.append name_len String.length].
    rewrite Hc, (IH Hn). reflexivity.
Qed.

Lemma advance_append (n x : string) : advance (n ++ x) (strlen n) = x.
Proof.
  unfold strlen. induction n as [|c n IH]; [reflexivity|].
  cbn [String.append String.length advance next]. exact IH.
Qed.

Lemma append_nil_r (n : string) : (n ++ "")%string = n.
Proof. induction n as [|c n IH]; simpl; congruence. Qed.

(** X9: a final newline does not change an acquire without timeout: for a
    name without white space, [pm_wake_lock] gives the same result and the
    same state for the name and for the name followed by one newline, the
    decision of the filter included. *)
Theorem acquire_ignores_final_newline (limit : Z) (e : env) (n : string)
  (st : state) :
  no_space n = true ->
  pm_wake_lock limit e (n ++ nl) st = pm_wake_lock limit e n st.
Proof.
  intros Hn. unfold pm_wake_lock.
  destruct (negb (capable e)); [reflexivity|].
  rewrite (name_len_no_space n nl Hn) by (left; reflexivity).
  pose proof (name_len_no_space n EmptyString Hn (or_intror eq_refl)) as Hlen.
  rewrite append_nil_r in Hlen. rewrite Hlen.
  destruct (strlen n =? 0)%nat; [reflexivity|].
  rewrite should_block_append_nl.
  destruct (screen_is_off st && should_block_wakelock st n); [reflexivity|].
  rewrite advance_append.
  pose proof (advance_append n EmptyString) as Hadv.
  rewrite append_nil_r in Hadv. rewrite Hadv.
  cbn [peek nl]. change (uchar "010" =? 10) with true.
  change (0 =? 0) with true. cbn [negb andb].
  rewrite wakelock_lookup_add_append. reflexivity.
Qed.

Lemma acquire_ignores_final_newline_witness :
  pm_wake_lock 8 (env_priv 11) ("wlan_timer" ++ nl) screen_off_state
  = pm_wake_lock 8 (env_priv 11) "wlan_timer" screen_off_state.
Proof. apply acquire_ignores_final_newline. reflexivity. Defined.

(** ** What every reachable state satisfies *)

Lemma reachable_three_locks : reachable 8 three_locks.
Proof.
  unfold three_locks, acquire.
  repeat (apply reach_lock; [|reflexivity]). apply reach_init.
Qed.

Lemma reachable_demo_state : reachable 8 demo_state.
Proof.
  unfold demo_state. apply reach_unlock; [|reflexivity].
  apply reachable_three_locks.
Qed.

(** X10: in every state the registry can reach, the tree, the LRU list and
    the store hold the same wakelocks: each live wakelock is in the tree
    once and in the list once, and neither holds a freed one. *)
Theorem reachable_registry_consistent (limit : Z) (st : state) :
  reachable limit st ->
  NoDup (rb_inorder (wakelocks_tree st)) /\
  NoDup (wakelocks_lru_list st) /\
  (forall p, p ∈ rb_inorder (wakelocks_tree st) <-> is_Some (mem st !! p)) /\
  (forall p, p ∈ wakelocks_lru_list st <-> is_Some (mem st !! p)).
Proof.
  intros Hr. destruct (reachable_invariant _ _ Hr) as [Hwf _].
  split; [apply Hwf|]. split; [apply Hwf|]. split.
  - intros p. apply wf_tree_live, Hwf.
  - intros p. apply wf_lru_live, Hwf.
Qed.

Lemma reachable_registry_consistent_witness :
  NoDup (rb_inorder (wakelocks_tree demo_state)) /\
  NoDup (wakelocks_lru_list demo_state) /\
  (forall p, p ∈ rb_inorder (wakelocks_tree demo_state)
             <-> is_Some (mem demo_state !! p)) /\
  (forall p, p ∈ wakelocks_lru_list demo_state
             <-> is_Some (mem demo_state !! p)).
Proof.
  apply (reachable_registry_consistent 8 demo_state).
  apply reachable_demo_state.
Defined.

Lemma StronglySorted_irrefl_NoDup {A : Type} (R : relation A) (l : list A) :
  (forall x, ~ R x x) -> StronglySorted R l -> NoDup l.
Proof.
  intros Hirr. induction 1 as [|x l Hs IH Hx]; constructor; [|exact IH].
  rewrite Forall_forall in Hx. intros Hin. apply (Hirr x), Hx, Hin.
Qed.

(** X11: in every reachable state the in-order walk of the tree meets the
    names in strictly increasing byte order, a proper prefix before its
    extensions; so no two wakelocks carry the same name. *)
Theorem reachable_names_sorted (limit : Z) (st : state) :
  reachable limit st ->
  StronglySorted (fun a b => name_ltb a b = true)
    (name_of (mem st) <$> rb_inorder (wakelocks_tree st)) /\
  NoDup (name_of (mem st) <$> rb_inorder (wakelocks_tree st)).
Proof.
  intros Hr. destruct (reachable_invariant _ _ Hr) as [_ Hst].
  assert (Hs : StronglySorted (fun a b => name_ltb a b = true)
                 (name_of (mem st) <$> rb_inorder (wakelocks_tree st))).
  { apply (StronglySorted_fmap (name_of (mem st)) (name_before (mem st)));
      [|exact Hst].
    intros x y H. exact H. }
  split; [exact Hs|].
  apply (StronglySorted_irrefl_NoDup _ _) in Hs; [exact Hs|].
  intros x H. rewrite name_ltb_irrefl in H. discriminate.
Qed.

Lemma reachable_names_sorted_witness :
  StronglySorted (fun a b => name_ltb a b = true)
    (name_of (mem demo_state) <$> rb_inorder (wakelocks_tree demo_state)) /\
  NoDup (name_of (mem demo_state) <$> rb_inorder (wakelocks_tree demo_state)).
Proof.
  apply (reachable_names_sorted 8 demo_state). apply reachable_demo_state.
Defined.

Lemma registered_name_is_found_witness :
  wakelock_lookup_add 8 (env_no_memory 11) (name_of (mem demo_state) 2%nat)
    (strlen (name_of (mem demo_state) 2%nat)) true demo_state
  = (inr 2%nat, demo_state).
Proof.
  apply (registered_name_is_found 8 (env_no_memory 11) true demo_state 2%nat).
  - apply reachable_demo_state.
  - vm_compute. set_solver.
Defined.

Lemma lookup_independent_of_shape_witness :
  lookup_walk (mem demo_state) "ab" 2 chain_tree = inl 2%nat <->
  lookup_walk (mem demo_state) "ab" 2 balanced_tree = inl 2%nat.
Proof.
  apply (lookup_independent_of_shape (mem demo_state) "ab" 2 chain_tree
           balanced_tree 2%nat).
  - reflexivity.
  - intros p Hp. vm_compute in Hp.
    repeat (apply elem_of_cons in Hp as [-> | Hp]); [reflexivity ..|].
    inversion Hp.
  - unfold name_before. decide_by_computation.
  - unfold name_before. decide_by_computation.
  - intros p. vm_compute. set_solver.
Defined.

Lemma reachable_count_witness :
  number_of_wakelocks demo_state
    = Z.of_nat (length (wakelocks_lru_list demo_state)) /\
  number_of_wakelocks demo_state <= 8 + 1.
Proof.
  apply (reachable_count 8 demo_state).
  - vm_compute. split; reflexivity.
  - apply reachable_demo_state.
Defined.

(** ** More on the collector *)

Lemma scanned_stale (now : Z) (m : gmap ptr wakelock) (l : list ptr) x :
  x ∈ scanned now m l -> stale now m x = true.
Proof.
  induction l as [|p l IH]; simpl; [intros H; inversion H|].
  destruct (stale now m p) eqn:E; [|intros H; inversion H].
  rewrite elem_of_cons. intros [-> | H]; [exact E | apply IH, H].
Qed.

Lemma collected_scanned (now : Z) (st : state) (x : ptr) :
  x ∈ collected now st <->
  x ∈ scanned now (mem st) (reverse (wakelocks_lru_list st)) /\
  active (ws_of (mem st) x) = false.
Proof. unfold collected. rewrite list_elem_of_filter. tauto. Qed.

(** X12: the sweep never destroys a wakelock that was touched less than
    300 s ago, active or not: it stays in the store, in the tree and in the
    LRU list. *)
Theorem sweep_spares_recent (limit now : Z) (st : state) (wl : ptr)
  (w : wakelock) :
  wf st ->
  mem st !! wl = Some w ->
  idle_time_ns now (ws w) < WL_GC_TIME_SEC * NSEC_PER_SEC ->
  mem (__wakelocks_gc limit now st) !! wl = Some w /\
  (wl ∈ wakelocks_lru_list st ->
   wl ∈ wakelocks_lru_list (__wakelocks_gc limit now st)) /\
  (wl ∈ rb_inorder (wakelocks_tree st) ->
   wl ∈ rb_inorder (wakelocks_tree (__wakelocks_gc limit now st))).
Proof.
  intros Hwf Hw Hidle.
  destruct (gc_sweep_effect limit now st Hwf) as (Hm & Hl & Ht & _).
  cbv zeta in Hm, Hl, Ht.
  assert (Hnot : wl ∉ collected now st).
  { intros Hin. apply collected_scanned in Hin as [Hin _].
    apply scanned_stale in Hin. unfold stale, ws_of in Hin.
    rewrite Hw in Hin. apply negb_true_iff, Z.ltb_ge in Hin. lia. }
  rewrite Hm, Hl, Ht, decide_False by exact Hnot.
  repeat split; [exact Hw | |]; intros Hin; apply list_elem_of_filter; tauto.
Qed.

Lemma sweep_spares_recent_witness :
  mem (__wakelocks_gc 8 (9 + WL_GC_TIME_SEC * NSEC_PER_SEC) demo_state)
    !! 1%nat
    = Some {| name := "a";
              ws := {| active := false; last_time := 10;
                       timer_expires := None |} |} /\
  (1%nat ∈ wakelocks_lru_list demo_state ->
   1%nat ∈ wakelocks_lru_list
     (__wakelocks_gc 8 (9 + WL_GC_TIME_SEC * NSEC_PER_SEC) demo_state)) /\
  (1%nat ∈ rb_inorder (wakelocks_tree demo_state) ->
   1%nat ∈ rb_inorder
     (wakelocks_tree
        (__wakelocks_gc 8 (9 + WL_GC_TIME_SEC * NSEC_PER_SEC) demo_state))).
Proof.
  apply (sweep_spares_recent 8 (9 + WL_GC_TIME_SEC * NSEC_PER_SEC) demo_state
           1%nat).
  - decide_by_computation.
  - reflexivity.
  - reflexivity.
Defined.

Lemma scanned_filter (now : Z) (m m' : gmap ptr wakelock) (P : ptr -> Prop)
  `{!forall x, Decision (P x)} (l : list ptr) (x : ptr) :
  (forall y, y ∈ l -> P y -> ws_of m' y = ws_of m y) ->
  (forall y, y ∈ l -> ~ P y -> stale now m y = true) ->
  x ∈ scanned now m' (filter P l) -> x ∈ scanned now m l.
Proof.
  induction l as [|p l IH]; intros Hsame Hout; [intros Hx; exact Hx|].
  assert (IH' : x ∈ scanned now m' (filter P l) -> x ∈ scanned now m l).
  { apply IH; intros y Hy; [apply Hsame | apply Hout]; right; exact Hy. }
  rewrite filter_cons. destruct (decide (P p)) as [Hp|Hp].
  - cbn [scanned].
    assert (Hst : stale now m' p = stale now m p).
    { unfold stale. rewrite (Hsame p ltac:(left) Hp). reflexivity. }
    rewrite Hst. destruct (stale now m p); [|intros Hx; inversion Hx].
    rewrite !elem_of_cons.
    intros [-> | Hx]; [left; reflexivity | right; auto].
  - intros Hx. cbn [scanned]. rewrite (Hout p ltac:(left) Hp).
    right. apply IH', Hx.
Qed.

Lemma filter_nothing {A : Type} (P : A -> Prop) `{!forall x, Decision (P x)}
  (l : list A) :
  (forall x, x ∈ l -> ~ P x) -> filter P l = [].
Proof.
  induction l as [|a l IH]; intros Hall; [reflexivity|].
  rewrite filter_cons_False by (apply Hall; left).
  apply IH. intros x Hx. apply Hall. right. exact Hx.
Qed.

(** After a sweep, a sweep at the same time finds nothing to collect. *)
Lemma collected_after_sweep (limit now : Z) (st : state) :
  wf st -> collected now (__wakelocks_gc limit now st) = [].
Proof.
  intros Hwf.
  destruct (gc_sweep_effect limit now st Hwf) as (Hm & Hl & _).
  cbv zeta in Hm, Hl.
  assert (Hws : forall y, y ∉ collected now st ->
            ws_of (mem (__wakelocks_gc limit now st)) y = ws_of (mem st) y).
  { intros y Hy. unfold ws_of. rewrite Hm, decide_False by exact Hy.
    reflexivity. }
  unfold collected at 1. apply filter_nothing. intros x Hx Hact.
  rewrite Hl, <- filter_reverse in Hx.
  assert (Hkept : x ∉ collected now st).
  { apply scanned_elem_of, list_elem_of_filter in Hx. tauto. }
  apply (scanned_filter now (mem st)) in Hx.
  - rewrite (Hws x Hkept) in Hact. apply Hkept, collected_scanned.
    split; assumption.
  - intros y _ Hy. apply Hws, Hy.
  - intros y _ Hy. destruct (decide (y ∈ collected now st)) as [Hin|]; [|tauto].
    apply collected_scanned in Hin as [Hin _]. apply (scanned_stale _ _ _ _ Hin).
Qed.

(** X13: the sweep is idempotent: a second sweep at the same time leaves
    the state the first one produced, because what the first one passed
    over is active or too recent. *)
Theorem sweep_is_idempotent (limit now : Z) (st : state) :
  wf st ->
  __wakelocks_gc limit now (__wakelocks_gc limit now st)
  = __wakelocks_gc limit now st.
Proof.
  intros Hwf.
  pose proof (wf_wakelocks_gc_work limit now st Hwf) as Hwf'.
  pose proof (collected_after_sweep limit now st Hwf) as Hnone.
  unfold __wakelocks_gc at 1.
  rewrite gc_scan_fold by (rewrite reverse_Permutation; apply Hwf').
  fold (collected now (__wakelocks_gc limit now st)). rewrite Hnone.
  reflexivity.
Qed.

Lemma sweep_is_idempotent_witness :
  __wakelocks_gc 8 (10 + WL_GC_TIME_SEC * NSEC_PER_SEC)
    (__wakelocks_gc 8 (10 + WL_GC_TIME_SEC * NSEC_PER_SEC) demo_state)
  = __wakelocks_gc 8 (10 + WL_GC_TIME_SEC * NSEC_PER_SEC) demo_state.
Proof. apply sweep_is_idempotent. decide_by_computation. Defined.

(** ** When the collector is scheduled *)

Lemma wakelocks_gc_iter (e : env) (st : state) (n : nat) :
  idle_cpu e = false ->
  0 <= wakelocks_gc_count st ->
  wakelocks_gc_count st + Z.of_nat n < 2 ^ 32 ->
  wakelocks_gc_count (Nat.iter n (wakelocks_gc e) st)
    = wakelocks_gc_count st + Z.of_nat n /\
  wakelock_work (Nat.iter n (wakelocks_gc e) st)
    = wakelock_work st ||
      ((0 <? Z.of_nat n) &&
       (WL_GC_COUNT_MAX <? wakelocks_gc_count st + Z.of_nat n)).
Proof.
  intros Hbusy Hc. induction n as [|n IH]; intros Hn.
  - simpl. rewrite Z.add_0_r, orb_false_r. split; reflexivity.
  - destruct IH as [IHc IHw]; [lia|].
    rewrite !Nat.iter_succ. set (s := Nat.iter n (wakelocks_gc e) st) in *.
    unfold wakelocks_gc. rewrite Hbusy.
    cbn [wakelocks_gc_count set_gc_count].
    assert (Hu : u32 (wakelocks_gc_count s + 1)
                 = wakelocks_gc_count st + Z.of_nat (S n)).
    { unfold u32. rewrite Z.mod_small by lia. lia. }
    rewrite Hu.
    assert (Hpos : (0 <? Z.of_nat (S n)) = true) by (apply Z.ltb_lt; lia).
    rewrite Hpos. cbn [andb].
    destruct (wakelocks_gc_count st + Z.of_nat (S n) <=? WL_GC_COUNT_MAX)
      eqn:E.
    + cbn [wakelocks_gc_count wakelock_work set_gc_count].
      split; [reflexivity|]. rewrite IHw.
      apply Z.leb_le in E.
      assert (H1 : (WL_GC_COUNT_MAX <? wakelocks_gc_count st + Z.of_nat n)
                   = false) by (apply Z.ltb_ge; lia).
      assert (H2 : (WL_GC_COUNT_MAX <? wakelocks_gc_count st + Z.of_nat (S n))
                   = false) by (apply Z.ltb_ge; lia).
      rewrite H1, H2, andb_false_r. reflexivity.
    + cbn [wakelocks_gc_count wakelock_work set_gc_count set_work].
      split; [reflexivity|].
      apply Z.leb_gt in E.
      assert (H2 : (WL_GC_COUNT_MAX <? wakelocks_gc_count st + Z.of_nat (S n))
                   = true) by (apply Z.ltb_lt; lia).
      rewrite H2, orb_true_r. reflexivity.
Qed.

(** X14: on a busy CPU, counting from a sweep, the first
    [WL_GC_COUNT_MAX] calls of [wakelocks_gc] only count and every later one
    schedules the work: after [n] calls the counter is [n] and the work is
    pending exactly if it was before or [n] exceeds 100.  On an idle CPU one
    call schedules the work and leaves the counter alone. *)
Theorem gc_is_scheduled_past_the_count (e_busy e_idle : env) (st : state)
  (n : nat) :
  idle_cpu e_busy = false ->
  idle_cpu e_idle = true ->
  wakelocks_gc_count st = 0 ->
  Z.of_nat n < 2 ^ 32 ->
  wakelocks_gc_count (Nat.iter n (wakelocks_gc e_busy) st) = Z.of_nat n /\
  wakelock_work (Nat.iter n (wakelocks_gc e_busy) st)
    = wakelock_work st || (WL_GC_COUNT_MAX <? Z.of_nat n) /\
  wakelock_work (wakelocks_gc e_idle st) = true /\
  wakelocks_gc_count (wakelocks_gc e_idle st) = wakelocks_gc_count st.
Proof.
  intros Hbusy Hidle Hc Hn.
  destruct (wakelocks_gc_iter e_busy st n Hbusy) as [H1 H2]; [lia | lia |].
  rewrite Hc in H1, H2. rewrite Z.add_0_l in H1, H2.
  split; [exact H1|]. split.
  - rewrite H2. f_equal.
    destruct (0 <? Z.of_nat n) eqn:E; [reflexivity|].
    apply Z.ltb_ge in E. simpl. symmetry. apply Z.ltb_ge.
    unfold WL_GC_COUNT_MAX. lia.
  - unfold wakelocks_gc. rewrite Hidle. split; reflexivity.
Qed.

Lemma gc_is_scheduled_past_the_count_witness :
  wakelocks_gc_count (Nat.iter 101 (wakelocks_gc (env_priv 5)) init_state)
    = Z.of_nat 101 /\
  wakelock_work (Nat.iter 101 (wakelocks_gc (env_priv 5)) init_state)
    = wakelock_work init_state || (WL_GC_COUNT_MAX <? Z.of_nat 101) /\
  wakelock_work (wakelocks_gc env_idle init_state) = true /\
  wakelocks_gc_count (wakelocks_gc env_idle init_state)
    = wakelocks_gc_count init_state.
Proof.
  apply gc_is_scheduled_past_the_count; reflexivity.
Defined.

(** A hundred calls do not schedule, the next one does. *)
Example gc_trigger_edge :
  wakelock_work (Nat.iter 100 (wakelocks_gc (env_priv 5)) init_state) = false /\
  wakelock_work (Nat.iter 101 (wakelocks_gc (env_priv 5)) init_state) = true.
Proof. vm_compute. split; reflexivity. Qed.

(** ** The listing *)

Lemma kstrndup_zero (s : string) : kstrndup s 0 = EmptyString.
Proof. destruct s; reflexivity. Qed.

Lemma kstrndup_nil (n : nat) : kstrndup EmptyString n = EmptyString.
Proof. destruct n; reflexivity. Qed.

Lemma strlen_kstrndup (s : string) (n : nat) :
  strlen (kstrndup s n) = Nat.min n (strlen s).
Proof.
  unfold strlen. revert s. induction n as [|n IH]; intros s.
  - rewrite kstrndup_zero. reflexivity.
  - destruct s as [|c r]; [reflexivity|]. simpl. rewrite IH. reflexivity.
Qed.

Lemma kstrndup_all (s : string) (n : nat) :
  (strlen s <= n)%nat -> kstrndup s n = s.
Proof.
  unfold strlen. revert n. induction s as [|c r IH]; intros n Hn.
  - apply kstrndup_nil.
  - destruct n as [|n]; simpl in Hn; [lia|].
    simpl. rewrite IH by lia. reflexivity.
Qed.

Lemma kstrndup_app (a b : string) (n : nat) :
  kstrndup (a ++ b) n = (kstrndup a n ++ kstrndup b (n - strlen a))%string.
Proof.
  unfold strlen. revert n. induction a as [|c a IH]; intros n.
  - cbn [String.append String.length].
    rewrite kstrndup_nil, Nat.sub_0_r. reflexivity.
  - destruct n as [|n].
    + rewrite !kstrndup_zero. reflexivity.
    + simpl. rewrite IH. reflexivity.
Qed.

(** One write into the page, on a page that holds a cut text. *)
Lemma sysfs_emit_at_cut (PAGE_SIZE : nat) (written text : string) :
  sysfs_emit_at PAGE_SIZE (kstrndup written (PAGE_SIZE - 1)) text
  = kstrndup (written ++ text) (PAGE_SIZE - 1).
Proof.
  unfold sysfs_emit_at. rewrite strlen_kstrndup, kstrndup_app.
  destruct (PAGE_SIZE <=? Nat.min (PAGE_SIZE - 1) (strlen written))%nat
    eqn:E.
  - apply Nat.leb_le in E. assert (PAGE_SIZE = O) by lia. subst.
    simpl. rewrite !kstrndup_zero. reflexivity.
  - f_equal. f_equal. apply Nat.leb_gt in E. lia.
Qed.

Lemma show_loop_cut (PAGE_SIZE : nat) (show_active : bool)
  (m : gmap ptr wakelock) (nodes : list ptr) (written : string) :
  sysfs_emit_at PAGE_SIZE
    (show_loop PAGE_SIZE show_active m nodes
       (kstrndup written (PAGE_SIZE - 1))) nl
  = kstrndup
      (written ++
       fold_right
         (fun wl acc =>
            if Bool.eqb (active (ws_of m wl)) show_active
            then (name_of m wl ++ " " ++ acc)%string else acc)
         nl nodes)
      (PAGE_SIZE - 1).
Proof.
  revert written. induction nodes as [|wl rest IH]; intros written.
  - apply sysfs_emit_at_cut.
  - cbn [show_loop fold_right].
    destruct (Bool.eqb (active (ws_of m wl)) show_active).
    + rewrite sysfs_emit_at_cut, IH, !append_assoc. reflexivity.
    + apply IH.
Qed.

Lemma show_closed_form (PAGE_SIZE : nat) (show_active : bool) (st : state) :
  pm_show_wakelocks PAGE_SIZE show_active st
  = kstrndup (listing show_active st) (PAGE_SIZE - 1).
Proof.
  unfold pm_show_wakelocks, listing.
  pose proof (show_loop_cut PAGE_SIZE show_active (mem st)
                (rb_inorder (wakelocks_tree st)) EmptyString) as H.
  rewrite kstrndup_nil in H. exact H.
Qed.

(** X15: [pm_show_wakelocks] leaves in the page the listing (the names
    whose [active] flag equals [show_active], in tree order, a space after
    each, then a newline) cut to [PAGE_SIZE - 1] characters: it never
    writes past the page, and a listing that fits is written whole. *)
Theorem pm_show_wakelocks_is_cut_listing (PAGE_SIZE : nat)
  (show_active : bool) (st : state) :
  pm_show_wakelocks PAGE_SIZE show_active st
    = kstrndup (listing show_active st) (PAGE_SIZE - 1) /\
  (strlen (pm_show_wakelocks PAGE_SIZE show_active st) <= PAGE_SIZE - 1)%nat /\
  ((strlen (listing show_active st) < PAGE_SIZE)%nat ->
   pm_show_wakelocks PAGE_SIZE show_active st = listing show_active st).
Proof.
  rewrite show_closed_form. split; [reflexivity|]. split.
  - rewrite strlen_kstrndup. lia.
  - intros Hfit. apply kstrndup_all. lia.
Qed.

(** A page of 8 characters holds 7 of the 10 the listing has. *)
Example listing_is_cut :
  listing true three_locks = ("a ab abc " ++ nl)%string /\
  pm_show_wakelocks 4096 true three_locks = ("a ab abc " ++ nl)%string /\
  pm_show_wakelocks 8 true three_locks = "a ab ab"%string.
Proof. vm_compute. repeat split; reflexivity. Qed.

Lemma listing_contains (b : bool) (m : gmap ptr wakelock) (nodes : list ptr)
  (wl : ptr) :
  wl ∈ nodes -> active (ws_of m wl) = b ->
  contains
    (fold_right
       (fun wl acc =>
          if Bool.eqb (active (ws_of m wl)) b
          then (name_of m wl ++ " " ++ acc)%string else acc)
       nl nodes)
    (name_of m wl ++ " ").
Proof.
  intros Hin Hb. induction nodes as [|p rest IH]; [inversion Hin|].
  cbn [fold_right]. apply elem_of_cons in Hin as [<- | Hin].
  - rewrite Hb, eqb_reflx. exists EmptyString. eexists.
    simpl. rewrite append_assoc. reflexivity.
  - destruct (IH Hin) as (a & c & Hac).
    destruct (Bool.eqb (active (ws_of m p)) b).
    + rewrite Hac. exists (name_of m p ++ " " ++ a)%string, c.
      rewrite !append_assoc. reflexivity.
    + exists a, c. exact Hac.
Qed.

(** X16: every registered wakelock shows in the listing that matches its
    [active] flag: when the listing fits the page, the text
    [pm_show_wakelocks] leaves holds its name followed by a space. *)
Theorem registered_name_is_listed (PAGE_SIZE : nat) (st : state) (wl : ptr) :
  (strlen (listing (active (ws_of (mem st) wl)) st) < PAGE_SIZE)%nat ->
  wl ∈ rb_inorder (wakelocks_tree st) ->
  contains (pm_show_wakelocks PAGE_SIZE (active (ws_of (mem st) wl)) st)
    (name_of (mem st) wl ++ " ").
Proof.
  intros Hfit Hin. rewrite show_closed_form, kstrndup_all by lia.
  apply listing_contains; [exact Hin | reflexivity].
Qed.

Lemma registered_name_is_listed_witness :
  contains
    (pm_show_wakelocks 4096 (active (ws_of (mem demo_state) 1%nat))
       demo_state)
    (name_of (mem demo_state) 1%nat ++ " ").
Proof.
  apply registered_name_is_listed.
  - vm_compute. lia.
  - vm_compute. set_solver.
Defined.

(** ** The display notifier and the filter *)

(** X17: [fb_notifier_callback] acts on blank events that carry data and on
    nothing else: such an event returns NOTIFY_OK and sets [screen_is_off]
    exactly when the blank code is not FB_BLANK_UNBLANK, so that from then
    on no acquire is vetoed after an unblank, and after a blank those are
    that [should_block_wakelock] names; any other event, a NULL event or
    one without data returns NOTIFY_DONE and changes nothing.  The
    registry is never touched. *)
Theorem fb_notifier_callback_sets_the_gate
  (FB_EVENT_BLANK FB_BLANK_UNBLANK NOTIFY_DONE NOTIFY_OK : Z)
  (event : Z) (data : option (option Z)) (st : state) :
  let r := fb_notifier_callback FB_EVENT_BLANK FB_BLANK_UNBLANK NOTIFY_DONE
             NOTIFY_OK event data st in
  (mem (snd r) = mem st /\
   wakelocks_tree (snd r) = wakelocks_tree st /\
   wakelocks_lru_list (snd r) = wakelocks_lru_list st /\
   number_of_wakelocks (snd r) = number_of_wakelocks st /\
   sensor_event_active (snd r) = sensor_event_active st) /\
  (forall blank,
     event = FB_EVENT_BLANK -> data = Some (Some blank) ->
     fst r = NOTIFY_OK /\
     screen_is_off (snd r) = negb (blank =? FB_BLANK_UNBLANK) /\
     forall buf,
       vetoed (snd r) buf
       = negb (blank =? FB_BLANK_UNBLANK) && should_block_wakelock st buf) /\
  (event <> FB_EVENT_BLANK \/ data = None \/ data = Some None ->
   r = (NOTIFY_DONE, st)).
Proof.
  cbv zeta. unfold fb_notifier_callback. split; [|split].
  - destruct (negb (event =? FB_EVENT_BLANK)); [repeat split|].
    destruct data as [[blank|]|]; repeat split.
  - intros blank -> ->. rewrite Z.eqb_refl. cbn. repeat split.
  - intros [Hne | [-> | ->]].
    + apply Z.eqb_neq in Hne. rewrite Hne. reflexivity.
    + destruct (negb (event =? FB_EVENT_BLANK)); reflexivity.
    + destruct (negb (event =? FB_EVENT_BLANK)); reflexivity.
Qed.

(** With the codes of linux/fb.h (FB_EVENT_BLANK 9, FB_BLANK_UNBLANK 0,
    FB_BLANK_POWERDOWN 4): "logd" is dropped after the display is powered
    down and taken again after it is unblanked. *)
Example blank_then_unblank :
  let off := snd (fb_notifier_callback 9 0 0 1 9 (Some (Some 4)) init_state) in
  let on := snd (fb_notifier_callback 9 0 0 1 9 (Some (Some 0)) off) in
  pm_wake_lock 4 (env_priv 7) "logd" off = (0, off) /\
  number_of_wakelocks (acquire 4 7 "logd" on) = 1.
Proof. vm_compute. split; reflexivity. Qed.

(** ** The order of the search loop *)

(** X18: one iteration of the search loop compares the requested name, the
    first [len] characters of the request, with the name of the node in
    byte order, a proper prefix before its extensions: it returns the node
    exactly when the names are equal, goes left when the requested name is
    smaller and right when it is greater. *)
Theorem search_loop_orders_names (m : gmap ptr wakelock) (nm : string)
  (len : nat) (wl : ptr) :
  cstring nm = true -> cstring (name_of m wl) = true ->
  match name_diff m nm len wl with
  | None => name_of m wl = kstrndup nm len
  | Some diff =>
      if diff <? 0 then name_ltb (kstrndup nm len) (name_of m wl) = true
      else name_ltb (name_of m wl) (kstrndup nm len) = true
  end.
Proof. exact (name_diff_order m nm len wl). Qed.

Lemma search_loop_orders_names_witness :
  match name_diff (mem demo_state) "ab 5" 2 0%nat with
  | None => name_of (mem demo_state) 0%nat = kstrndup "ab 5" 2
  | Some diff =>
      if diff <? 0
      then name_ltb (kstrndup "ab 5" 2) (name_of (mem demo_state) 0%nat) = true
      else name_ltb (name_of (mem demo_state) 0%nat) (kstrndup "ab 5" 2) = true
  end.
Proof. apply search_loop_orders_names; reflexivity. Defined.

(** ** The flags and the registry *)






